(** * Holonomic trajectory manager (cvra-modules)

    A shallow embedding of the periodic trajectory regulator
    [holonomic_trajectory_manager_event] and of the helpers that live with it
    (arrival windows, angle utilities, the speed ramp, arming and disarming of
    the scheduler task), followed by the properties established about them.

    Modelling conventions.
    - C [double] and [float] values are idealised as real numbers [R]:
      rounding, NaN and infinities are outside the model.
    - [int32_t] and [int] values are integers [Z]; arithmetic on them that can
      leave the 32-bit range is written with [wrap32].
    - The [static] variables [prev_speed] and [keyframe], the scheduler and the
      calls made to the drive layer are fields of one explicit [world] that
      every operation threads.
    - [printf] diagnostics are not modelled. *)

From Stdlib Require Import Reals Lra Lia ZArith List Bool String.
Import ListNotations.
Open Scope R_scope.

(** ** C numerics *)

Module C.

(** Two's-complement wrap-around of a 32-bit signed integer. *)
Definition wrap32 (z : Z) : Z := ((z + 2 ^ 31) mod 2 ^ 32 - 2 ^ 31)%Z.

Definition INT32_MIN : Z := (- 2 ^ 31)%Z.
Definition INT32_MAX : Z := (2 ^ 31 - 1)%Z.

(** Conversion of a floating value to an integer type: truncation toward
    zero (the conversion of a value outside the integer's range is undefined
    in C and is not given a meaning here). *)
Definition trunc (r : R) : Z :=
  if Rle_dec 0 r then Int_part r else (- Int_part (- r))%Z.

(** The comparison operators on floating values, as C truth values. *)
Definition ltb (a b : R) : bool := if Rlt_dec a b then true else false.
Definition gtb (a b : R) : bool := ltb b a.

(** The [ABS] macro. *)
Definition ABS (a : R) : R := if Rlt_dec a 0 then - a else a.

(** [<math.h>]: [M_PI] is pi and [M_PI_2] is pi/2. *)
Definition M_PI : R := PI.
Definition M_PI_2 : R := PI / 2.

(** [atan2f] of [<math.h>]: the argument of the point [(x, y)]. *)
Definition atan2f (y x : R) : R :=
  if Rlt_dec 0 x then atan (y / x)
  else if Rlt_dec x 0 then
    (if Rle_dec 0 y then atan (y / x) + PI else atan (y / x) - PI)
  else if Rlt_dec 0 y then PI / 2
  else if Rlt_dec y 0 then - (PI / 2)
  else 0.

(** [pow(x, 2)]. *)
Definition pow2 (x : R) : R := x * x.

End C.

(** ** Vectors *)

Module vect2.
Record cart : Type := mk { x : R; y : R }.
End vect2.

Definition vect2_cart : Type := vect2.cart.

(** Modelled from the spec: [vect2_dist_cart] of the vect2 module, the
    Euclidean distance between two points. *)
Definition vect2_dist_cart (p q : vect2_cart) : R :=
  sqrt (C.pow2 (vect2.x p - vect2.x q) + C.pow2 (vect2.y p - vect2.y q)).

(** Modelled from the spec: [vect2_angle_vec_x_rad_cart] of the vect2 module,
    the angle between a vector and the x axis, in radians. *)
Definition vect2_angle_vec_x_rad_cart (v : vect2_cart) : R :=
  C.atan2f (vect2.y v) (vect2.x v).

(** Modelled from the spec: the [TO_DEG] macro, radians to degrees. *)
Definition TO_DEG (a : R) : R := a * 180 / PI.

(** ** Data model *)

(** Moving trajectories *)
Inductive h_trajectory_moving_state : Type :=
| MOVING_STRAIGHT
| MOVING_CIRCLE
| MOVING_IDLE.

(** Turning trajectories *)
Inductive h_trajectory_turning_state : Type :=
| TURNING_CAP
| TURNING_SPEEDOFFSET
| TURNING_FACEPOINT
| TURNING_IDLE.

(** Modelled from the spec: what the position manager's getters return at the
    current tick ([holonomic_position_get_x_double], [.._y_double],
    [.._a_rad_double] and [.._a_rad_float], [.._theta_v], [.._theta_v_int]). *)
Record holonomic_robot_position : Type := mk_position {
  pos_x : R;
  pos_y : R;
  pos_a_rad : R;
  pos_theta_v : R;
  pos_theta_v_int : Z
}.

(** [struct h_trajectory]; the fields the regulator never reads (the unused
    outputs, the ramp filters, [cs_hz], the robot binding) are left out. *)
Record h_trajectory : Type := mk_traj {
  moving_state : h_trajectory_moving_state;
  turning_state : h_trajectory_turning_state;
  xy_target : vect2_cart;
  a_target : R;
  circle_center : vect2_cart;
  arc_angle : R;
  radius : R;
  point2face : vect2_cart;
  d_win : R;
  a_win : R;
  end_of_traj : Z;
  position : holonomic_robot_position;
  scheduler_task : Z
}.

Definition set_moving_state (m : h_trajectory_moving_state) (t : h_trajectory) :=
  mk_traj m (turning_state t) (xy_target t) (a_target t) (circle_center t)
    (arc_angle t) (radius t) (point2face t) (d_win t) (a_win t) (end_of_traj t)
    (position t) (scheduler_task t).

Definition set_turning_state (s : h_trajectory_turning_state) (t : h_trajectory) :=
  mk_traj (moving_state t) s (xy_target t) (a_target t) (circle_center t)
    (arc_angle t) (radius t) (point2face t) (d_win t) (a_win t) (end_of_traj t)
    (position t) (scheduler_task t).

Definition set_xy_target (p : vect2_cart) (t : h_trajectory) :=
  mk_traj (moving_state t) (turning_state t) p (a_target t) (circle_center t)
    (arc_angle t) (radius t) (point2face t) (d_win t) (a_win t) (end_of_traj t)
    (position t) (scheduler_task t).

Definition set_end_of_traj (e : Z) (t : h_trajectory) :=
  mk_traj (moving_state t) (turning_state t) (xy_target t) (a_target t)
    (circle_center t) (arc_angle t) (radius t) (point2face t) (d_win t)
    (a_win t) e (position t) (scheduler_task t).

Definition set_position (p : holonomic_robot_position) (t : h_trajectory) :=
  mk_traj (moving_state t) (turning_state t) (xy_target t) (a_target t)
    (circle_center t) (arc_angle t) (radius t) (point2face t) (d_win t)
    (a_win t) (end_of_traj t) p (scheduler_task t).

Definition set_scheduler_task (id : Z) (t : h_trajectory) :=
  mk_traj (moving_state t) (turning_state t) (xy_target t) (a_target t)
    (circle_center t) (arc_angle t) (radius t) (point2face t) (d_win t)
    (a_win t) (end_of_traj t) (position t) id.

(** ** The world the regulator runs in *)

(** Calls that leave the module, in the order they are made. *)
Inductive call : Type :=
| rsh_set_speed (speed : Z)
| rsh_set_direction_int (direction : Z)
| rsh_set_rotation_speed (omega : Z)
| scheduler_add_periodical_event_priority (priority : Z)
| scheduler_del_event (id : Z)
| DEBUG (msg : string).

(** Modelled from the spec: the periodic scheduler, as the list of the task
    handles it holds for this trajectory. Registration hands out the handle
    [h] chosen by the scheduler; the handle -1 reports that no slot was free
    and nothing was registered. Deregistration removes the handle. *)
Definition scheduler_register (h : Z) (tasks : list Z) : list Z :=
  if (h =? -1)%Z then tasks else h :: tasks.

Definition scheduler_deregister (h : Z) (tasks : list Z) : list Z :=
  filter (fun k => negb (k =? h)%Z) tasks.

Record world : Type := mk_world {
  traj : h_trajectory;
  prev_speed : Z;               (* static int prev_speed = 0; *)
  keyframe : vect2_cart;        (* static vect2_cart keyframe = {-1, -1}; *)
  tasks : list Z;               (* the scheduler's registrations *)
  calls : list call             (* the calls made so far, oldest first *)
}.

Definition with_traj (f : h_trajectory -> h_trajectory) (w : world) : world :=
  mk_world (f (traj w)) (prev_speed w) (keyframe w) (tasks w) (calls w).

Definition with_prev_speed (v : Z) (w : world) : world :=
  mk_world (traj w) v (keyframe w) (tasks w) (calls w).

Definition with_keyframe (k : vect2_cart) (w : world) : world :=
  mk_world (traj w) (prev_speed w) k (tasks w) (calls w).

Definition with_tasks (f : list Z -> list Z) (w : world) : world :=
  mk_world (traj w) (prev_speed w) (keyframe w) (f (tasks w)) (calls w).

Definition emit (c : call) (w : world) : world :=
  mk_world (traj w) (prev_speed w) (keyframe w) (tasks w) (calls w ++ [c]).

(** The initial values of the two [static] variables. *)
Definition prev_speed_init : Z := 0%Z.
Definition keyframe_init : vect2_cart := vect2.mk (-1) (-1).

(** ** Constants of the module *)

Definition SPEED_ROBOT : Z := 500%Z.
Definition ANGLE_INC : R := 5 / 100.

(** ** Angle utilities *)

(** Calculates if the positiv or the negativ rotation is better. *)
Definition holonomic_best_delta_angle_rad (a : R) : R :=
  if C.gtb a C.M_PI then a - 2 * C.M_PI
  else if C.ltb a (- C.M_PI) then 2 * C.M_PI - a
  else a.

(** do a modulo 2.pi -> [-Pi,+Pi], knowing that 'a' is in [-3Pi,+3Pi] *)
Definition holonomic_simple_modulo_2pi (a : R) : R :=
  if C.ltb a (- C.M_PI) then a + C.M_PI_2
  else if C.gtb a C.M_PI then a - C.M_PI_2
  else a.

(** do a modulo 2.pi -> [-Pi,+Pi] *)
Definition holonomic_modulo_2pi (a : R) : R :=
  let res := a - IZR (C.trunc (a / C.M_PI_2)) * C.M_PI_2 in
  holonomic_simple_modulo_2pi res.

(** Calculates the angle between the robot and a facing point. *)
Definition holonomic_angle_facepoint_rad (t : h_trajectory) (fpc : vect2_cart) : R :=
  let a_fp := vect2_angle_vec_x_rad_cart fpc in
  let d_a := a_fp - pos_a_rad (position t) in
  holonomic_best_delta_angle_rad d_a.

(** Calculates the difference of the robots angle to angle of the speedvector
    plus offset. *)
Definition holonomic_angle_2_speed_rad (t : h_trajectory) (ao : R) : R :=
  let d_a := (pos_theta_v (position t) + ao) - pos_a_rad (position t) in
  holonomic_best_delta_angle_rad d_a.

(** Calculates the difference between the angle of the robot and a wished
    angle. *)
Definition holonomic_angle_2_x_rad (t : h_trajectory) (a : R) : R :=
  let d_a := a - pos_a_rad (position t) in
  holonomic_best_delta_angle_rad d_a.

(** ** Arrival windows *)

(** near the target (dist in x,y) ? *)
Definition holonomic_robot_in_xy_window (t : h_trajectory) (d_win : R) : bool :=
  let vcp := vect2.mk (pos_x (position t)) (pos_y (position t)) in
  C.ltb (vect2_dist_cart vcp (xy_target t)) d_win.

(** returns true if the robot is in an area enclosed by a certain angle *)
Definition holonomic_robot_in_angle_window (t : h_trajectory) (a_win_rad : R) : bool :=
  let d_a := a_target t - pos_a_rad (position t) in
  if C.ltb (C.ABS d_a) C.M_PI then C.ltb (C.ABS d_a) (a_win_rad / 2)
  else C.ltb (2 * C.M_PI - C.ABS d_a) (a_win_rad / 2).

(** ** The speed ramp and the drive layer *)

(** The new [prev_speed] is both stored and returned. *)
Definition holonomic_do_ramp (consign : Z) (w : world) : Z * world :=
  let step := 20%Z in
  let v := C.wrap32
             (prev_speed w + (if (consign >=? prev_speed w)%Z then step else - step)) in
  (v, with_prev_speed v w).

Definition set_consigns_to_rsh (speed direction omega : Z) (w : world) : world :=
  let (v, w) := holonomic_do_ramp speed w in
  let w := emit (rsh_set_speed v) w in
  let w := emit (rsh_set_direction_int direction) w in
  emit (rsh_set_rotation_speed omega) w.

(** ** Arming and disarming the periodic evaluation *)

(** remove event if any *)
Definition holonomic_delete_event (w : world) : world :=
  let w := with_prev_speed 0 w in
  let w := with_traj (set_end_of_traj 1) w in
  let w := set_consigns_to_rsh 0 (pos_theta_v_int (position (traj w))) 0 w in
  let w := emit (rsh_set_speed 0) w in
  if negb (scheduler_task (traj w) =? -1)%Z then
    let w := emit (DEBUG "Delete event") w in
    let w := emit (scheduler_del_event (scheduler_task (traj w))) w in
    let w := with_tasks (scheduler_deregister (scheduler_task (traj w))) w in
    with_traj (set_scheduler_task (-1)) w
  else w.

(** schedule the trajectory event; [h] is the handle the scheduler answers
    the registration with. *)
Definition holonomic_schedule_event (h : Z) (w : world) : world :=
  if negb (scheduler_task (traj w) =? -1)%Z then
    emit (DEBUG "Schedule event, already scheduled") w
  else
    let w := emit (scheduler_add_periodical_event_priority 30) w in
    let w := with_tasks (scheduler_register h) w in
    with_traj (set_scheduler_task h) w.

(** ** The periodic regulator *)

(** The point of the circle that lies [inc] radians behind the robot's
    angular position around the centre: the expression the regulator uses
    for the keyframe (with [ANGLE_INC]) and for the arrival point (with
    [arc_angle]). *)
Definition circle_point (t : h_trajectory) (x y inc : R) : vect2_cart :=
  let c := circle_center t in
  vect2.mk
    (vect2.x c + cos (C.atan2f (y - vect2.y c) (x - vect2.x c) - inc) * radius t)
    (vect2.y c + sin (C.atan2f (y - vect2.y c) (x - vect2.x c) - inc) * radius t).

(** [int32_t distance2target = sqrtf(pow(x - xy_target.x, 2) + ...)] *)
Definition distance2target (t : h_trajectory) : Z :=
  let x := pos_x (position t) in
  let y := pos_y (position t) in
  C.trunc (sqrt (C.pow2 (x - vect2.x (xy_target t))
                 + C.pow2 (y - vect2.y (xy_target t)))).

(** step 1 : process new commands to quadramps. The result is the world
    (keyframe and [xy_target] may change) with [s_consign] and [a_consign]. *)
Definition moving_step (w : world) : world * Z * Z :=
  let t := traj w in
  let x := pos_x (position t) in
  let y := pos_y (position t) in
  let d2t := distance2target t in
  let vec_target := vect2.mk (vect2.x (xy_target t) - x) (vect2.y (xy_target t) - y) in
  match moving_state t with
  | MOVING_STRAIGHT =>
      let a_consign := C.trunc (TO_DEG (vect2_angle_vec_x_rad_cart vec_target)) in
      let s_consign := if (d2t <? 250)%Z then C.wrap32 (2 * d2t) else SPEED_ROBOT in
      (w, s_consign, a_consign)
  | MOVING_CIRCLE =>
      let w :=
        if C.ltb (vect2.x (keyframe w)) 0
        then with_keyframe (circle_point t x y ANGLE_INC) w
        else w in
      let w := with_traj (set_xy_target (keyframe w)) w in
      let a_consign := C.trunc (TO_DEG (vect2_angle_vec_x_rad_cart vec_target)) in
      (w, (SPEED_ROBOT / 5)%Z, a_consign)
  | MOVING_IDLE => (w, 0%Z, 0%Z)
  end.

(** The switch on [turning_state]: the angular speed consign [o_consign]. *)
Definition turning_step (t : h_trajectory) : Z :=
  match turning_state t with
  | TURNING_CAP =>
      if C.ltb (a_target t - pos_a_rad (position t)) 0
         || C.gtb (a_target t - pos_a_rad (position t)) C.M_PI
      then 50%Z else (-50)%Z
  | TURNING_SPEEDOFFSET => 1%Z
  | TURNING_FACEPOINT => 1%Z
  | TURNING_IDLE => 0%Z
  end.

Definition is_TURNING_IDLE (s : h_trajectory_turning_state) : bool :=
  match s with TURNING_IDLE => true | _ => false end.

Definition is_MOVING_CIRCLE (m : h_trajectory_moving_state) : bool :=
  match m with MOVING_CIRCLE => true | _ => false end.

Definition is_MOVING_IDLE (m : h_trajectory_moving_state) : bool :=
  match m with MOVING_IDLE => true | _ => false end.

(** The end of the regulator, from the second arrival test on: the angle
    window of an idle moving axis, then step 2, pass the consign to rsh. *)
Definition finish_or_issue (s_consign a_consign o_consign : Z) (w : world) : world :=
  if is_MOVING_IDLE (moving_state (traj w))
     && holonomic_robot_in_angle_window (traj w) (a_win (traj w))
  then holonomic_delete_event (with_traj (set_turning_state TURNING_IDLE) w)
  else set_consigns_to_rsh s_consign a_consign o_consign w.

Definition holonomic_trajectory_manager_event (w : world) : world :=
  let x := pos_x (position (traj w)) in
  let y := pos_y (position (traj w)) in
  let vector_pos := vect2.mk x y in
  let '(w, s_consign, a_consign) := moving_step w in
  let o_consign := turning_step (traj w) in
  (* step 3 : check the end of the move *)
  if is_TURNING_IDLE (turning_state (traj w))
     && holonomic_robot_in_xy_window (traj w) (d_win (traj w))
  then
    if is_MOVING_CIRCLE (moving_state (traj w)) then
      let w := with_keyframe (circle_point (traj w) x y ANGLE_INC) w in
      let arrival := circle_point (traj w) x y (arc_angle (traj w)) in
      if C.ltb (vect2_dist_cart arrival vector_pos) (d_win (traj w))
      then holonomic_delete_event w
      else w
    else if (prev_speed w <? 20)%Z then
      holonomic_delete_event (with_traj (set_moving_state MOVING_IDLE) w)
    else finish_or_issue 0 a_consign o_consign w
  else finish_or_issue s_consign a_consign o_consign w.

(** The position manager refreshes the pose between two ticks. *)
Definition tick (p : holonomic_robot_position) (w : world) : world :=
  holonomic_trajectory_manager_event (with_traj (set_position p) w).

Definition run_ticks (ps : list holonomic_robot_position) (w : world) : world :=
  fold_left (fun w p => tick p w) ps w.

(** A point lies on the circle of the trajectory. *)
Definition on_circle (t : h_trajectory) (p : vect2_cart) : Prop :=
  vect2_dist_cart p (circle_center t) = radius t.

(** The scheduler holds a registration for the trajectory exactly when
    [scheduler_task] is a handle. *)
Definition armed (w : world) : Prop := tasks w <> [].

Definition task_consistent (w : world) : Prop :=
  tasks w = if (scheduler_task (traj w) =? -1)%Z then [] else [scheduler_task (traj w)].

(** ** The arc length helper *)

(** Modelled from the spec: [fast_acosf] of the fast_math module, a fast
    approximation of the arc cosine, idealised as the arc cosine itself. *)
Definition fast_acosf (x : R) : R := acos x.

(** calculates the lenght of an arc of a circle given an end point and a
    radius *)
Definition holonomic_length_arc_of_circle_pnt (t : h_trajectory) (rad : R) : R :=
  let vcp := vect2.mk (pos_x (position t)) (pos_y (position t)) in
  let d_r := vect2_dist_cart vcp (xy_target t) / rad in
  (* law of cosines *)
  rad * fast_acosf (1 - 5 / 10 * d_r * d_r).

(** ** Repeated calls *)

(** [n] successive calls of the ramp with the same consign. *)
Fixpoint ramp_n (n : nat) (consign : Z) (w : world) : world :=
  match n with
  | O => w
  | S n => ramp_n n consign (snd (holonomic_do_ramp consign w))
  end.

(** The pose lies inside the distance window of the trajectory. *)
Definition in_xy_window_at (t : h_trajectory) (p : holonomic_robot_position) : Prop :=
  holonomic_robot_in_xy_window (set_position p t) (d_win t) = true.

(** The pose lies outside the angle window of the trajectory. *)
Definition out_of_angle_window (t : h_trajectory) (p : holonomic_robot_position) : Prop :=
  holonomic_robot_in_angle_window (set_position p t) (a_win t) = false.

(** ** What a run of ticks is measured by *)

(** The stored speed is a multiple of the step between 0 and
    [SPEED_ROBOT] + 20, and so is every speed handed to the drive layer. *)
Definition speed_in_bounds (w : world) : Prop :=
  (exists k : Z, prev_speed w = (20 * k)%Z /\ (0 <= k <= 26)%Z)
  /\ forall v : Z, In (rsh_set_speed v) (calls w) -> (0 <= v <= 520)%Z.

(** The fields a command sets and the regulator only reads. *)
Definition same_goal (t t' : h_trajectory) : Prop :=
  a_target t' = a_target t
  /\ circle_center t' = circle_center t
  /\ arc_angle t' = arc_angle t
  /\ radius t' = radius t
  /\ point2face t' = point2face t
  /\ d_win t' = d_win t
  /\ a_win t' = a_win t.

(** ** Scenarios *)

(** The heading wraparound met in the tests: target 0.05, heading
    2*pi - 0.05. *)
Definition wraparound_example : h_trajectory :=
  mk_traj MOVING_IDLE TURNING_CAP (vect2.mk 0 0) (5 / 100) (vect2.mk 0 0) 0 0
    (vect2.mk 0 0) 0 (3 / 10) 0 (mk_position 0 0 (2 * PI - 5 / 100) 0 0) (-1).

(** A robot at the origin, heading 0, asked to face the point [fp]. *)
Definition facing_example (fp : vect2_cart) : world :=
  mk_world
    (mk_traj MOVING_STRAIGHT TURNING_FACEPOINT (vect2.mk 1000 0) 0 (vect2.mk 0 0)
       0 0 fp 50 0 0 (mk_position 0 0 0 0 0) 3)
    0 keyframe_init [3%Z] [].

(** What the static keyframe satisfies between two ticks of an arc. *)
Definition keyframe_ok (w : world) : Prop :=
  keyframe w = keyframe_init \/ on_circle (traj w) (keyframe w).

(** A quarter circle around the origin, radius 100, started at (100, 0) and
    walked (keyframes lie behind the robot's argument) down to (0, -100).
    The robot stands on its last keyframe, (0, -100), the end of the arc. *)
Definition quarter_arc_end : world :=
  mk_world
    (mk_traj MOVING_CIRCLE TURNING_IDLE (vect2.mk 0 (-100)) 0 (vect2.mk 0 0)
       (PI / 2) 100 (vect2.mk 0 0) 10 0 0 (mk_position 0 (-100) 0 0 0) 3)
    100 (vect2.mk 0 (-100)) [3%Z] [].

(** A straight line with the target 99.5 away. *)
Definition straight_at_99_5 : world :=
  mk_world
    (mk_traj MOVING_STRAIGHT TURNING_CAP (vect2.mk (199 / 2) 0) 0 (vect2.mk 0 0)
       0 0 (vect2.mk 0 0) 50 (3 / 10) 0 (mk_position 0 0 0 0 0) 3)
    prev_speed_init keyframe_init [3%Z] [].

(** The program at its start, asked for a quarter arc of radius 100 around
    the origin from the pose (100, 0). *)
Definition first_arc_start : world :=
  mk_world
    (mk_traj MOVING_CIRCLE TURNING_IDLE (vect2.mk 0 0) 0 (vect2.mk 0 0)
       (PI / 2) 100 (vect2.mk 0 0) 10 (3 / 10) 0 (mk_position 100 0 0 0 0) 3)
    prev_speed_init keyframe_init [3%Z] [].

(** The trajectory as a later command leaves it: a quarter arc of radius 10
    around (1000, 1000), the robot at (1010, 1000). *)
Definition second_arc : h_trajectory :=
  mk_traj MOVING_CIRCLE TURNING_IDLE (vect2.mk 0 0) 0 (vect2.mk 1000 1000)
    (PI / 2) 10 (vect2.mk 0 0) 10 (3 / 10) 0 (mk_position 1010 1000 0 0 0) 3.

(** * Properties *)

(** ** Numeric facts *)

Lemma ltb_true_iff (a b : R) : C.ltb a b = true <-> a < b.
Proof.
  unfold C.ltb; destruct (Rlt_dec a b); split; intros; try easy.
Qed.

Lemma ltb_false_iff (a b : R) : C.ltb a b = false <-> b <= a.
Proof.
  unfold C.ltb; destruct (Rlt_dec a b); split; intros; try easy; lra.
Qed.

Lemma ABS_Rabs (a : R) : C.ABS a = Rabs a.
Proof.
  unfold C.ABS, Rabs; destruct (Rlt_dec a 0), (Rcase_abs a); lra.
Qed.

Lemma PI_gt_3 : 3 < PI.
Proof. pose proof PI2_3_2; lra. Qed.

Lemma wrap32_small (z : Z) :
  (C.INT32_MIN <= z <= C.INT32_MAX)%Z -> C.wrap32 z = z.
Proof.
  unfold C.INT32_MIN, C.INT32_MAX, C.wrap32; intros Hz.
  rewrite Z.mod_small; lia.
Qed.

Lemma trunc_nonneg (r : R) :
  0 <= r -> IZR (C.trunc r) <= r < IZR (C.trunc r) + 1.
Proof.
  intros Hr; unfold C.trunc; destruct (Rle_dec 0 r) as [_ | Hn]; [| lra].
  pose proof (base_Int_part r); lra.
Qed.

Lemma trunc_unique (r : R) (z : Z) :
  0 <= r -> IZR z <= r < IZR z + 1 -> C.trunc r = z.
Proof.
  intros Hr Hz; unfold C.trunc; destruct (Rle_dec 0 r) as [_ | Hn]; [| lra].
  symmetry; apply Int_part_spec; lra.
Qed.

(** Case analysis on the C comparisons met in a goal. *)
Ltac by_cases_on_comparisons :=
  unfold C.gtb, C.ltb, C.M_PI, C.M_PI_2 in *;
  repeat match goal with
         | |- context [Rlt_dec ?a ?b] => destruct (Rlt_dec a b)
         | H : context [Rlt_dec ?a ?b] |- _ => destruct (Rlt_dec a b)
         end.

(** ** Angle utilities *)

(** Below -pi the function returns [2*pi - a], a value above 3*pi. *)
Lemma best_delta_angle_below_minus_pi (a : R) :
  a < - PI ->
  holonomic_best_delta_angle_rad a = 2 * PI - a
  /\ 3 * PI < holonomic_best_delta_angle_rad a.
Proof.
  intros Ha; pose proof PI_RGT_0.
  unfold holonomic_best_delta_angle_rad; by_cases_on_comparisons; lra.
Qed.

(** C1, as stated, fails: the input 13 lies above 3*pi, one subtraction of
    2*pi leaves it above pi, and a second application changes it again. *)
Lemma best_delta_angle_13_out_of_range :
  ~ (- PI < holonomic_best_delta_angle_rad 13 <= PI)
  /\ holonomic_best_delta_angle_rad (holonomic_best_delta_angle_rad 13)
     <> holonomic_best_delta_angle_rad 13.
Proof.
  pose proof PI_4; pose proof PI_gt_3.
  unfold holonomic_best_delta_angle_rad; by_cases_on_comparisons; lra.
Qed.

(** C1, amended: for every input angle a with -pi < a <= 3*pi,
    [holonomic_best_delta_angle_rad] returns a value in (-pi, pi]: a value
    above pi is mapped by subtracting 2*pi, a value of (-pi, pi] is returned
    as it is, and applying the function twice gives the same result as
    applying it once. *)
Theorem best_delta_angle_in_range (a : R) :
  - PI < a <= 3 * PI ->
  - PI < holonomic_best_delta_angle_rad a <= PI
  /\ (PI < a -> holonomic_best_delta_angle_rad a = a - 2 * PI)
  /\ (a <= PI -> holonomic_best_delta_angle_rad a = a)
  /\ holonomic_best_delta_angle_rad (holonomic_best_delta_angle_rad a)
     = holonomic_best_delta_angle_rad a.
Proof.
  intros Ha; pose proof PI_RGT_0.
  unfold holonomic_best_delta_angle_rad; by_cases_on_comparisons;
    repeat split; intros; lra.
Qed.

Lemma best_delta_angle_in_range_at_4 :
  - PI < holonomic_best_delta_angle_rad 4 <= PI
  /\ (PI < 4 -> holonomic_best_delta_angle_rad 4 = 4 - 2 * PI)
  /\ (4 <= PI -> holonomic_best_delta_angle_rad 4 = 4)
  /\ holonomic_best_delta_angle_rad (holonomic_best_delta_angle_rad 4)
     = holonomic_best_delta_angle_rad 4.
Proof.
  apply (best_delta_angle_in_range 4).
  pose proof PI_gt_3; lra.
Defined.

(** The reduction never leaves (-pi/2, pi/2): the remainder taken is that of
    the division by [M_PI_2], and no correction of the second step applies. *)
Lemma modulo_2pi_remainder (a : R) :
  holonomic_modulo_2pi a = a - IZR (C.trunc (a / (PI / 2))) * (PI / 2)
  /\ - (PI / 2) < holonomic_modulo_2pi a < PI / 2.
Proof.
  pose proof PI_RGT_0 as Hpi.
  assert (Hq : a = (a / (PI / 2)) * (PI / 2)) by (field; lra).
  assert (Hr : - (PI / 2) < a - IZR (C.trunc (a / (PI / 2))) * (PI / 2) < PI / 2).
  { set (q := a / (PI / 2)) in *.
    assert (Ht : -1 < q - IZR (C.trunc q) < 1).
    { unfold C.trunc; destruct (Rle_dec 0 q).
      - pose proof (base_Int_part q); lra.
      - rewrite opp_IZR. pose proof (base_Int_part (- q)); lra. }
    split; nra. }
  unfold holonomic_modulo_2pi, holonomic_simple_modulo_2pi.
  by_cases_on_comparisons; split; lra.
Qed.

(** C2, the code at the input 2 (within [-3*pi, 3*pi] and already within
    (-pi, pi]): the reduction returns 2 - pi/2, which is no angle equivalent
    to 2 modulo 2*pi. *)
Theorem modulo_2pi_at_2_not_equivalent :
  (- (3 * PI) <= 2 <= 3 * PI /\ - PI < 2 <= PI)
  /\ holonomic_modulo_2pi 2 = 2 - PI / 2
  /\ forall k : Z, holonomic_modulo_2pi 2 <> 2 + IZR k * (2 * PI).
Proof.
  pose proof PI_gt_3 as H3; pose proof PI_4 as H4.
  assert (Ht : C.trunc (2 / (PI / 2)) = 1%Z).
  { assert (Hq : 1 <= 2 / (PI / 2) < 2).
    { split.
      - apply Rmult_le_reg_r with (PI / 2); [lra |].
        replace (2 / (PI / 2) * (PI / 2)) with 2 by (field; lra). lra.
      - apply Rmult_lt_reg_r with (PI / 2); [lra |].
        replace (2 / (PI / 2) * (PI / 2)) with 2 by (field; lra). lra. }
    apply trunc_unique; simpl; lra. }
  assert (Hv : holonomic_modulo_2pi 2 = 2 - PI / 2).
  { destruct (modulo_2pi_remainder 2) as [-> _]. rewrite Ht. simpl. lra. }
  repeat split; try lra.
  intros k Hk. rewrite Hv in Hk.
  assert (Hz : IZR (4 * k + 1) = 0).
  { rewrite plus_IZR, mult_IZR. simpl.
    apply Rmult_eq_reg_r with (PI / 2); lra. }
  apply eq_IZR in Hz. lia.
Qed.

(** ** The speed ramp *)

Lemma do_ramp_value (consign : Z) (w : world) :
  (C.INT32_MIN + 20 <= prev_speed w <= C.INT32_MAX - 20)%Z ->
  fst (holonomic_do_ramp consign w)
  = (if (consign >=? prev_speed w)%Z then prev_speed w + 20 else prev_speed w - 20)%Z
  /\ prev_speed (snd (holonomic_do_ramp consign w)) = fst (holonomic_do_ramp consign w).
Proof.
  intros Hr; unfold holonomic_do_ramp; simpl; split; [| reflexivity].
  destruct (consign >=? prev_speed w)%Z; apply wrap32_small;
    unfold C.INT32_MIN, C.INT32_MAX in *; lia.
Qed.

Lemma delete_event_calls (w : world) :
  exists rest,
    calls (holonomic_delete_event w)
    = calls w ++ rsh_set_speed 20 :: rsh_set_direction_int (pos_theta_v_int (position (traj w)))
        :: rsh_set_rotation_speed 0 :: rsh_set_speed 0 :: rest
    /\ (scheduler_task (traj w) = (-1)%Z -> rest = []).
Proof.
  unfold holonomic_delete_event, set_consigns_to_rsh, holonomic_do_ramp; simpl.
  destruct (scheduler_task (traj w) =? -1)%Z eqn:E; simpl.
  - exists []. rewrite <- !app_assoc. simpl. auto.
  - eexists. rewrite <- !app_assoc. simpl. split; [reflexivity |].
    intros H; rewrite H in E; discriminate.
Qed.

Lemma delete_event_prev_speed (w : world) :
  prev_speed (holonomic_delete_event w) = 20%Z.
Proof.
  unfold holonomic_delete_event, set_consigns_to_rsh, holonomic_do_ramp; simpl.
  destruct (scheduler_task (traj w) =? -1)%Z; reflexivity.
Qed.

(** C3, as stated, fails: from the previous speed 0 and the consign 10 the
    ramp issues 20, past the consign. *)
Lemma do_ramp_overshoots_consign_10 :
  let w := mk_world
             (mk_traj MOVING_STRAIGHT TURNING_IDLE (vect2.mk 0 0) 0 (vect2.mk 0 0)
                0 0 (vect2.mk 0 0) 0 0 0 (mk_position 0 0 0 0 0) (-1))
             prev_speed_init keyframe_init [] [] in
  fst (holonomic_do_ramp 10 w) = 20%Z
  /\ (prev_speed w < 10 < fst (holonomic_do_ramp 10 w))%Z.
Proof. simpl. split; [reflexivity | split; reflexivity]. Qed.

(** C3, amended: for every requested consign and every previously issued
    speed that differs from it, [holonomic_do_ramp] moves the issued speed
    toward the consign by the fixed step 20, and nothing clamps the step: a
    gap of at least 20 shrinks by exactly 20, and a gap below 20 is
    overshot, the issued speed ending past the consign by 20 minus the gap. *)
Theorem do_ramp_fixed_step_unclamped (consign : Z) (w : world) :
  (C.INT32_MIN + 20 <= prev_speed w <= C.INT32_MAX - 20)%Z ->
  consign <> prev_speed w ->
  let v := fst (holonomic_do_ramp consign w) in
  ((prev_speed w < consign -> v = prev_speed w + 20)
   /\ (consign < prev_speed w -> v = prev_speed w - 20)
   /\ (20 <= Z.abs (consign - prev_speed w) ->
       Z.abs (consign - v) = Z.abs (consign - prev_speed w) - 20)
   /\ (Z.abs (consign - prev_speed w) < 20 ->
       Z.abs (consign - v) = 20 - Z.abs (consign - prev_speed w)
       /\ (prev_speed w < consign < v \/ v < consign < prev_speed w)))%Z.
Proof.
  intros Hr Hne v. subst v.
  destruct (do_ramp_value consign w Hr) as [-> _].
  destruct (consign >=? prev_speed w)%Z eqn:E;
    [apply Z.geb_le in E | rewrite Z.geb_leb in E; apply Z.leb_gt in E];
    repeat split; intros; lia.
Qed.

Lemma do_ramp_fixed_step_unclamped_at_0_10 :
  let w := mk_world
             (mk_traj MOVING_STRAIGHT TURNING_IDLE (vect2.mk 0 0) 0 (vect2.mk 0 0)
                0 0 (vect2.mk 0 0) 0 0 0 (mk_position 0 0 0 0 0) (-1))
             0 keyframe_init [] [] in
  let v := fst (holonomic_do_ramp 10 w) in
  ((prev_speed w < 10 -> v = prev_speed w + 20)
   /\ (10 < prev_speed w -> v = prev_speed w - 20)
   /\ (20 <= Z.abs (10 - prev_speed w) ->
       Z.abs (10 - v) = Z.abs (10 - prev_speed w) - 20)
   /\ (Z.abs (10 - prev_speed w) < 20 ->
       Z.abs (10 - v) = 20 - Z.abs (10 - prev_speed w)
       /\ (prev_speed w < 10 < v \/ v < 10 < prev_speed w)))%Z.
Proof.
  intros w.
  apply (do_ramp_fixed_step_unclamped 10 w); simpl;
    unfold C.INT32_MIN, C.INT32_MAX; lia.
Defined.

(** C10: on every call (away from the overflow of [int]),
    [holonomic_do_ramp] changes the stored previous speed by exactly 20 in
    absolute value: it adds 20 when the consign is greater than or equal to
    the previous speed and subtracts 20 otherwise. A consign equal to the
    previous speed therefore makes the issued speed rise by 20; this is what
    happens to the zero consign that [holonomic_delete_event] passes right
    after it has reset the previous speed to zero. *)
Theorem do_ramp_changes_by_exactly_20 (consign : Z) (w : world) :
  (C.INT32_MIN + 20 <= prev_speed w <= C.INT32_MAX - 20)%Z ->
  let v := fst (holonomic_do_ramp consign w) in
  let w' := snd (holonomic_do_ramp consign w) in
  (prev_speed w' = v
   /\ Z.abs (prev_speed w' - prev_speed w) = 20
   /\ (prev_speed w <= consign -> prev_speed w' = prev_speed w + 20)
   /\ (consign < prev_speed w -> prev_speed w' = prev_speed w - 20)
   /\ (consign = prev_speed w -> v = consign + 20)
   /\ prev_speed (holonomic_delete_event w) = 20
   /\ exists rest,
        calls (holonomic_delete_event w) = calls w ++ rsh_set_speed 20 :: rest)%Z.
Proof.
  intros Hr v w'. subst v w'.
  destruct (do_ramp_value consign w Hr) as [Hv ->]. rewrite Hv.
  destruct (delete_event_calls w) as [rest [Hc _]].
  destruct (consign >=? prev_speed w)%Z eqn:E;
    [apply Z.geb_le in E | rewrite Z.geb_leb in E; apply Z.leb_gt in E];
    (repeat split; [.. | eexists; exact Hc]); intros;
    try apply delete_event_prev_speed; lia.
Qed.

Lemma do_ramp_changes_by_exactly_20_at_rest :
  let w := mk_world
             (mk_traj MOVING_IDLE TURNING_IDLE (vect2.mk 0 0) 0 (vect2.mk 0 0)
                0 0 (vect2.mk 0 0) 0 0 1 (mk_position 0 0 0 0 0) (-1))
             0 keyframe_init [] [] in
  let v := fst (holonomic_do_ramp 0 w) in
  let w' := snd (holonomic_do_ramp 0 w) in
  (prev_speed w' = v
   /\ Z.abs (prev_speed w' - prev_speed w) = 20
   /\ (prev_speed w <= 0 -> prev_speed w' = prev_speed w + 20)
   /\ (0 < prev_speed w -> prev_speed w' = prev_speed w - 20)
   /\ (0 = prev_speed w -> v = 0 + 20)
   /\ prev_speed (holonomic_delete_event w) = 20
   /\ exists rest,
        calls (holonomic_delete_event w) = calls w ++ rsh_set_speed 20 :: rest)%Z.
Proof.
  intros w.
  apply (do_ramp_changes_by_exactly_20 0 w); simpl;
    unfold C.INT32_MIN, C.INT32_MAX; lia.
Defined.

(** ** Arming and disarming *)

Lemma task_consistent_armed (w : world) :
  task_consistent w -> (scheduler_task (traj w) = (-1)%Z <-> ~ armed w).
Proof.
  unfold task_consistent, armed.
  destruct (Z.eqb_spec (scheduler_task (traj w)) (-1)) as [E | E];
    intros ->; split; intros H; try easy.
  exfalso; apply H; discriminate.
Qed.

Lemma schedule_event_consistent (h : Z) (w : world) :
  task_consistent w -> task_consistent (holonomic_schedule_event h w).
Proof.
  unfold task_consistent, holonomic_schedule_event.
  destruct (Z.eqb_spec (scheduler_task (traj w)) (-1)) as [E | E]; simpl;
    intros Hc.
  - rewrite Hc. unfold scheduler_register. destruct (h =? -1)%Z; reflexivity.
  - rewrite Hc. destruct (Z.eqb_spec (scheduler_task (traj w)) (-1)); easy.
Qed.

Lemma delete_event_disarms (w : world) :
  task_consistent w ->
  tasks (holonomic_delete_event w) = []
  /\ scheduler_task (traj (holonomic_delete_event w)) = (-1)%Z.
Proof.
  unfold task_consistent, holonomic_delete_event, set_consigns_to_rsh,
    holonomic_do_ramp; simpl.
  destruct (Z.eqb_spec (scheduler_task (traj w)) (-1)) as [E | E]; simpl;
    intros Hc.
  - auto.
  - rewrite Hc. unfold scheduler_deregister; simpl.
    rewrite Z.eqb_refl; simpl. auto.
Qed.

Lemma delete_event_consistent (w : world) :
  task_consistent w -> task_consistent (holonomic_delete_event w).
Proof.
  intros Hc; destruct (delete_event_disarms w Hc) as [Ht Hs].
  unfold task_consistent; rewrite Ht, Hs; reflexivity.
Qed.

Lemma set_consigns_consistent (s a o : Z) (w : world) :
  task_consistent w -> task_consistent (set_consigns_to_rsh s a o w).
Proof. unfold task_consistent, set_consigns_to_rsh, holonomic_do_ramp; simpl; auto. Qed.

(** A tick of the regulator keeps the scheduler and [scheduler_task] in
    step: it reaches the scheduler through [holonomic_delete_event] only. *)
Lemma regulator_consistent (w : world) :
  task_consistent w -> task_consistent (holonomic_trajectory_manager_event w).
Proof.
  intros Hc. unfold holonomic_trajectory_manager_event.
  assert (H1 : task_consistent (fst (fst (moving_step w)))).
  { unfold moving_step. destruct (moving_state (traj w)); simpl; try exact Hc.
    destruct (C.ltb (vect2.x (keyframe w)) 0); exact Hc. }
  destruct (moving_step w) as [[w1 s] a]. simpl in H1.
  assert (Hf : forall s' o, task_consistent (finish_or_issue s' a o w1)).
  { intros s' o. unfold finish_or_issue.
    destruct (is_MOVING_IDLE (moving_state (traj w1))
              && holonomic_robot_in_angle_window (traj w1) (a_win (traj w1))).
    - apply delete_event_consistent. exact H1.
    - apply set_consigns_consistent. exact H1. }
  destruct (is_TURNING_IDLE (turning_state (traj w1))
            && holonomic_robot_in_xy_window (traj w1) (d_win (traj w1)));
    [| apply Hf].
  destruct (is_MOVING_CIRCLE (moving_state (traj w1))).
  - match goal with |- context [if ?c then _ else _] => destruct c end.
    + apply delete_event_consistent. exact H1.
    + exact H1.
  - destruct (prev_speed w1 <? 20)%Z; [| apply Hf].
    apply delete_event_consistent. exact H1.
Qed.

(** C9: [scheduler_task] is -1 exactly when no periodic evaluation is armed,
    before and after either operation; [holonomic_schedule_event] on an armed
    trajectory registers nothing and only logs; [holonomic_delete_event] on a
    disarmed trajectory makes no call to the scheduler and leaves it as it
    was. Arming twice and disarming twice are therefore safe. *)
Theorem arming_and_disarming_are_idempotent_safe (h : Z) (w : world) :
  task_consistent w ->
  let wa := holonomic_schedule_event h w in
  let wd := holonomic_delete_event w in
  (scheduler_task (traj w) = (-1)%Z <-> ~ armed w)
  /\ (task_consistent wa /\ (scheduler_task (traj wa) = (-1)%Z <-> ~ armed wa))
  /\ (task_consistent wd /\ scheduler_task (traj wd) = (-1)%Z /\ ~ armed wd)
  /\ (scheduler_task (traj w) <> (-1)%Z ->
      wa = emit (DEBUG "Schedule event, already scheduled") w)
  /\ (scheduler_task (traj w) = (-1)%Z ->
      tasks wd = tasks w
      /\ calls wd
         = calls w ++ [rsh_set_speed 20;
                       rsh_set_direction_int (pos_theta_v_int (position (traj w)));
                       rsh_set_rotation_speed 0; rsh_set_speed 0]).
Proof.
  intros Hc wa wd.
  pose proof (schedule_event_consistent h w Hc) as Hca.
  pose proof (delete_event_consistent w Hc) as Hcd.
  destruct (delete_event_disarms w Hc) as [Hd1 Hd2].
  split; [now apply task_consistent_armed |].
  split; [split; [exact Hca | now apply task_consistent_armed] |].
  split.
  { split; [exact Hcd | split; [exact Hd2 |]].
    unfold armed; subst wd; rewrite Hd1; intros H; now apply H. }
  split.
  { intros Hn. subst wa. unfold holonomic_schedule_event.
    destruct (Z.eqb_spec (scheduler_task (traj w)) (-1)); easy. }
  intros He. split.
  - subst wd. rewrite Hd1. unfold task_consistent in Hc.
    rewrite He in Hc. simpl in Hc. now rewrite Hc.
  - destruct (delete_event_calls w) as [rest [Hcalls Hrest]].
    subst wd. rewrite Hcalls, (Hrest He). reflexivity.
Qed.

Lemma arming_and_disarming_on_an_armed_task :
  let w := mk_world
             (mk_traj MOVING_STRAIGHT TURNING_IDLE (vect2.mk 1000 0) 0 (vect2.mk 0 0)
                0 0 (vect2.mk 0 0) 50 0 0 (mk_position 0 0 0 0 0) 3)
             0 keyframe_init [3%Z] [] in
  let wa := holonomic_schedule_event 4 w in
  let wd := holonomic_delete_event w in
  (scheduler_task (traj w) = (-1)%Z <-> ~ armed w)
  /\ (task_consistent wa /\ (scheduler_task (traj wa) = (-1)%Z <-> ~ armed wa))
  /\ (task_consistent wd /\ scheduler_task (traj wd) = (-1)%Z /\ ~ armed wd)
  /\ (scheduler_task (traj w) <> (-1)%Z ->
      wa = emit (DEBUG "Schedule event, already scheduled") w)
  /\ (scheduler_task (traj w) = (-1)%Z ->
      tasks wd = tasks w
      /\ calls wd
         = calls w ++ [rsh_set_speed 20;
                       rsh_set_direction_int (pos_theta_v_int (position (traj w)));
                       rsh_set_rotation_speed 0; rsh_set_speed 0]).
Proof.
  intros w.
  apply (arming_and_disarming_are_idempotent_safe 4 w).
  reflexivity.
Defined.

(** ** Arrival windows *)

(** C7: with d_a = a_target - current heading,
    [holonomic_robot_in_angle_window] answers true exactly when either
    |d_a| < pi and |d_a| < a_win/2, or |d_a| >= pi and
    2*pi - |d_a| < a_win/2; it reports in-window across the wraparound for
    a_target = 0.05, current heading = 2*pi - 0.05 and a_win = 0.3. *)
Theorem angle_window_predicate :
  (forall (t : h_trajectory) (a_win_rad : R),
      let d_a := a_target t - pos_a_rad (position t) in
      holonomic_robot_in_angle_window t a_win_rad = true
      <-> (Rabs d_a < PI /\ Rabs d_a < a_win_rad / 2)
          \/ (PI <= Rabs d_a /\ 2 * PI - Rabs d_a < a_win_rad / 2))
  /\ holonomic_robot_in_angle_window wraparound_example (3 / 10) = true.
Proof.
  assert (Hiff : forall (t : h_trajectory) (a_win_rad : R),
      let d_a := a_target t - pos_a_rad (position t) in
      holonomic_robot_in_angle_window t a_win_rad = true
      <-> (Rabs d_a < PI /\ Rabs d_a < a_win_rad / 2)
          \/ (PI <= Rabs d_a /\ 2 * PI - Rabs d_a < a_win_rad / 2)).
  { intros t a_win_rad d_a.
    unfold holonomic_robot_in_angle_window. fold d_a.
    rewrite ABS_Rabs. unfold C.M_PI.
    destruct (C.ltb (Rabs d_a) PI) eqn:E.
    - apply ltb_true_iff in E. rewrite ltb_true_iff. split; [tauto |].
      intros [H | H]; [tauto | lra].
    - apply ltb_false_iff in E. rewrite ltb_true_iff. split; [tauto |].
      intros [H | H]; [lra | tauto]. }
  split; [exact Hiff |].
  apply Hiff. right. simpl.
  pose proof PI_gt_3.
  replace (5 / 100 - (2 * PI - 5 / 100)) with (- (2 * PI - 1 / 10)) by lra.
  rewrite Rabs_Ropp, Rabs_pos_eq; lra.
Qed.

(** ** The moving axis *)

Lemma distance2target_bounds (t : h_trajectory) :
  let d := vect2_dist_cart (vect2.mk (pos_x (position t)) (pos_y (position t)))
             (xy_target t) in
  (0 <= distance2target t)%Z
  /\ IZR (distance2target t) <= d < IZR (distance2target t) + 1.
Proof.
  intros d.
  assert (Hd : 0 <= d) by apply sqrt_pos.
  assert (Hb : IZR (distance2target t) <= d < IZR (distance2target t) + 1)
    by (apply trunc_nonneg; exact Hd).
  split; [| exact Hb].
  apply Z.lt_succ_r, lt_IZR. rewrite succ_IZR. simpl. lra.
Qed.

(** C8, as stated, fails: 99.5 away from the target the consign is 198,
    twice the integer part of the distance, not twice the distance. *)
Lemma straight_taper_at_99_5_is_198 :
  let t := traj straight_at_99_5 in
  let d := vect2_dist_cart (vect2.mk (pos_x (position t)) (pos_y (position t)))
             (xy_target t) in
  let s_consign := snd (fst (moving_step straight_at_99_5)) in
  d = 199 / 2
  /\ d < 250
  /\ s_consign = 198%Z
  /\ IZR s_consign <> 2 * d.
Proof.
  assert (Hd : vect2_dist_cart (vect2.mk 0 0) (vect2.mk (199 / 2) 0) = 199 / 2).
  { unfold vect2_dist_cart, C.pow2. simpl.
    replace ((0 - 199 / 2) * (0 - 199 / 2) + (0 - 0) * (0 - 0))
      with (199 / 2 * (199 / 2)) by lra.
    apply sqrt_square. lra. }
  assert (Hz : distance2target (traj straight_at_99_5) = 99%Z).
  { unfold distance2target. simpl.
    change (sqrt (C.pow2 (0 - 199 / 2) + C.pow2 (0 - 0)))
      with (vect2_dist_cart (vect2.mk 0 0) (vect2.mk (199 / 2) 0)).
    rewrite Hd. apply trunc_unique; simpl; lra. }
  assert (Hs : snd (fst (moving_step straight_at_99_5)) = 198%Z).
  { unfold moving_step.
    change (moving_state (traj straight_at_99_5)) with MOVING_STRAIGHT.
    cbv iota zeta. cbn [fst snd]. rewrite Hz. reflexivity. }
  cbv zeta. rewrite Hs.
  change (vect2_dist_cart
            (vect2.mk (pos_x (position (traj straight_at_99_5)))
               (pos_y (position (traj straight_at_99_5))))
            (xy_target (traj straight_at_99_5)))
    with (vect2_dist_cart (vect2.mk 0 0) (vect2.mk (199 / 2) 0)).
  rewrite Hd. repeat split; try lra.
Qed.

(** C8, amended: on every tick in STRAIGHT mode the speed consign computed
    by the switch on [moving_state] is the cruise speed 500 when the distance
    to [xy_target] is at least 250, and twice [distance2target], the integer
    part of the distance, when the distance is below 250; a distance of 100
    gives the consign 200. That consign is the one passed to the ramp,
    except on a tick where the arrival gate holds (turning axis idle and
    robot within [d_win]): such a tick passes 0 to the ramp when the stored
    speed is 20 or more, and finishes the trajectory otherwise. *)
Theorem straight_mode_speed_taper (w : world) :
  moving_state (traj w) = MOVING_STRAIGHT ->
  let t := traj w in
  let d := vect2_dist_cart (vect2.mk (pos_x (position t)) (pos_y (position t)))
             (xy_target t) in
  let s_consign := snd (fst (moving_step w)) in
  let a_consign := snd (moving_step w) in
  (250 <= d -> s_consign = 500%Z)
  /\ (d < 250 ->
      s_consign = (2 * distance2target t)%Z
      /\ IZR (distance2target t) <= d < IZR (distance2target t) + 1)
  /\ (d = 100 -> s_consign = 200%Z)
  /\ (~ (turning_state t = TURNING_IDLE /\ d < d_win t) ->
      holonomic_trajectory_manager_event w
      = set_consigns_to_rsh s_consign a_consign (turning_step t) w)
  /\ (turning_state t = TURNING_IDLE -> d < d_win t -> (20 <= prev_speed w)%Z ->
      holonomic_trajectory_manager_event w
      = set_consigns_to_rsh 0 a_consign (turning_step t) w)
  /\ (turning_state t = TURNING_IDLE -> d < d_win t -> (prev_speed w < 20)%Z ->
      holonomic_trajectory_manager_event w
      = holonomic_delete_event (with_traj (set_moving_state MOVING_IDLE) w)).
Proof.
  intros Hm t d s_consign a_consign. subst t.
  destruct (distance2target_bounds (traj w)) as [H0 Hb]. fold d in Hb.
  assert (Hs : s_consign
               = if (distance2target (traj w) <? 250)%Z
                 then (2 * distance2target (traj w))%Z else 500%Z).
  { subst s_consign. unfold moving_step. rewrite Hm. cbn [fst snd].
    destruct (Z.ltb_spec (distance2target (traj w)) 250); [| reflexivity].
    apply wrap32_small. unfold C.INT32_MIN, C.INT32_MAX. lia. }
  assert (Hge : 250 <= d -> (250 <= distance2target (traj w))%Z).
  { intros Hd. apply Z.lt_succ_r, lt_IZR. rewrite succ_IZR. lra. }
  assert (Hlt : d < 250 -> (distance2target (traj w) < 250)%Z).
  { intros Hd. apply lt_IZR. lra. }
  assert (Hstep : moving_step w = (w, s_consign, a_consign)).
  { subst s_consign a_consign. unfold moving_step. rewrite Hm.
    reflexivity. }
  split.
  { intros Hd. rewrite Hs. destruct (Z.ltb_spec (distance2target (traj w)) 250);
      [specialize (Hge Hd); lia | reflexivity]. }
  split.
  { intros Hd. split; [| exact Hb]. rewrite Hs.
    destruct (Z.ltb_spec (distance2target (traj w)) 250);
      [reflexivity | specialize (Hlt Hd); lia]. }
  split.
  { intros Hd. rewrite Hs.
    assert (Hz : distance2target (traj w) = 100%Z).
    { apply Z.le_antisymm.
      - apply le_IZR. lra.
      - apply Z.lt_succ_r, lt_IZR. rewrite succ_IZR. simpl. lra. }
    rewrite Hz. reflexivity. }
  split.
  { intros Hgate. unfold holonomic_trajectory_manager_event.
    rewrite Hstep.
    assert (Hg : is_TURNING_IDLE (turning_state (traj w))
                 && holonomic_robot_in_xy_window (traj w) (d_win (traj w)) = false).
    { apply andb_false_iff.
      destruct (turning_state (traj w)) eqn:Et; simpl; auto.
      right. unfold holonomic_robot_in_xy_window. fold d.
      apply ltb_false_iff. apply Rnot_lt_le. intros Hd. apply Hgate. auto. }
    rewrite Hg. unfold finish_or_issue. rewrite Hm. reflexivity. }
  assert (Hgate : turning_state (traj w) = TURNING_IDLE -> d < d_win (traj w) ->
                  is_TURNING_IDLE (turning_state (traj w))
                  && holonomic_robot_in_xy_window (traj w) (d_win (traj w)) = true).
  { intros Ht Hd. apply andb_true_iff. rewrite Ht. split; [reflexivity |].
    unfold holonomic_robot_in_xy_window. fold d. now apply ltb_true_iff. }
  split.
  - intros Ht Hd Hp. unfold holonomic_trajectory_manager_event.
    rewrite Hstep, (Hgate Ht Hd), Hm. simpl.
    destruct (Z.ltb_spec (prev_speed w) 20); [lia |].
    unfold finish_or_issue. rewrite Hm. reflexivity.
  - intros Ht Hd Hp. unfold holonomic_trajectory_manager_event.
    rewrite Hstep, (Hgate Ht Hd), Hm. simpl.
    destruct (Z.ltb_spec (prev_speed w) 20); [reflexivity | lia].
Qed.

Lemma straight_mode_speed_taper_towards_1000_0 :
  let w := mk_world
             (mk_traj MOVING_STRAIGHT TURNING_IDLE (vect2.mk 1000 0) 0 (vect2.mk 0 0)
                0 0 (vect2.mk 0 0) 50 0 0 (mk_position 900 0 0 0 0) 3)
             500 keyframe_init [3%Z] [] in
  let t := traj w in
  let d := vect2_dist_cart (vect2.mk (pos_x (position t)) (pos_y (position t)))
             (xy_target t) in
  let s_consign := snd (fst (moving_step w)) in
  let a_consign := snd (moving_step w) in
  (250 <= d -> s_consign = 500%Z)
  /\ (d < 250 ->
      s_consign = (2 * distance2target t)%Z
      /\ IZR (distance2target t) <= d < IZR (distance2target t) + 1)
  /\ (d = 100 -> s_consign = 200%Z)
  /\ (~ (turning_state t = TURNING_IDLE /\ d < d_win t) ->
      holonomic_trajectory_manager_event w
      = set_consigns_to_rsh s_consign a_consign (turning_step t) w)
  /\ (turning_state t = TURNING_IDLE -> d < d_win t -> (20 <= prev_speed w)%Z ->
      holonomic_trajectory_manager_event w
      = set_consigns_to_rsh 0 a_consign (turning_step t) w)
  /\ (turning_state t = TURNING_IDLE -> d < d_win t -> (prev_speed w < 20)%Z ->
      holonomic_trajectory_manager_event w
      = holonomic_delete_event (with_traj (set_moving_state MOVING_IDLE) w)).
Proof.
  intros w.
  apply (straight_mode_speed_taper w).
  reflexivity.
Defined.

(** ** What the operations leave untouched *)

Lemma set_consigns_calls (s a o : Z) (w : world) :
  calls (set_consigns_to_rsh s a o w)
  = calls w ++ [rsh_set_speed (fst (holonomic_do_ramp s w));
                rsh_set_direction_int a; rsh_set_rotation_speed o].
Proof.
  unfold set_consigns_to_rsh, holonomic_do_ramp; simpl.
  rewrite <- !app_assoc. reflexivity.
Qed.

Lemma set_consigns_frame (s a o : Z) (w : world) :
  traj (set_consigns_to_rsh s a o w) = traj w
  /\ keyframe (set_consigns_to_rsh s a o w) = keyframe w.
Proof. unfold set_consigns_to_rsh, holonomic_do_ramp; simpl; auto. Qed.

Lemma delete_event_frame (w : world) :
  let w' := holonomic_delete_event w in
  keyframe w' = keyframe w
  /\ moving_state (traj w') = moving_state (traj w)
  /\ turning_state (traj w') = turning_state (traj w)
  /\ xy_target (traj w') = xy_target (traj w)
  /\ circle_center (traj w') = circle_center (traj w)
  /\ radius (traj w') = radius (traj w)
  /\ end_of_traj (traj w') = 1%Z.
Proof.
  unfold holonomic_delete_event, set_consigns_to_rsh, holonomic_do_ramp; simpl.
  destruct (scheduler_task (traj w) =? -1)%Z; simpl; repeat split.
Qed.

Lemma moving_step_frame (w : world) :
  let w1 := fst (fst (moving_step w)) in
  moving_state (traj w1) = moving_state (traj w)
  /\ turning_state (traj w1) = turning_state (traj w)
  /\ a_target (traj w1) = a_target (traj w)
  /\ a_win (traj w1) = a_win (traj w)
  /\ position (traj w1) = position (traj w)
  /\ circle_center (traj w1) = circle_center (traj w)
  /\ radius (traj w1) = radius (traj w)
  /\ prev_speed w1 = prev_speed w
  /\ calls w1 = calls w.
Proof.
  unfold moving_step.
  destruct (moving_state (traj w)) eqn:Em; simpl; try (rewrite Em; repeat split).
  destruct (C.ltb (vect2.x (keyframe w)) 0); simpl; rewrite Em; repeat split.
Qed.

(** ** The turning axis *)

(** C4, as stated, fails: a point to face a quarter turn to the left and one
    a quarter turn to the right, by the angle utility, get the same angular
    speed consign 1. *)
Lemma facepoint_consign_ignores_the_point :
  let wl := facing_example (vect2.mk 0 1) in
  let wr := facing_example (vect2.mk 0 (-1)) in
  holonomic_angle_facepoint_rad (traj wl) (point2face (traj wl)) = PI / 2
  /\ holonomic_angle_facepoint_rad (traj wr) (point2face (traj wr)) = - (PI / 2)
  /\ turning_step (traj wl) = 1%Z
  /\ turning_step (traj wr) = 1%Z.
Proof.
  pose proof PI_RGT_0.
  unfold holonomic_angle_facepoint_rad, holonomic_best_delta_angle_rad,
    vect2_angle_vec_x_rad_cart, C.atan2f; simpl.
  by_cases_on_comparisons; repeat split; lra.
Qed.

(** C4, amended: on every tick in which [turning_state] is FACE_POINT the
    angular speed consign computed by the regulator is the fixed constant 1,
    whatever the pose and the point to face; the angle utility is not
    called. The consign 1 is the one issued to the drive layer unless the
    tick finishes the turning axis. *)
Theorem facepoint_consign_is_the_constant_1 (w : world) :
  turning_state (traj w) = TURNING_FACEPOINT ->
  turning_step (traj w) = 1%Z
  /\ (~ (moving_state (traj w) = MOVING_IDLE
         /\ holonomic_robot_in_angle_window (traj w) (a_win (traj w)) = true) ->
      exists v a : Z,
        calls (holonomic_trajectory_manager_event w)
        = calls w ++ [rsh_set_speed v; rsh_set_direction_int a;
                      rsh_set_rotation_speed 1]).
Proof.
  intros Ht. split; [unfold turning_step; now rewrite Ht |].
  intros Hfin. unfold holonomic_trajectory_manager_event.
  pose proof (moving_step_frame w) as Hf.
  destruct (moving_step w) as [[w1 s] a]. simpl in Hf.
  destruct Hf as (Hm & Hts & Hat & Haw & Hp & _ & _ & _ & Hc).
  rewrite Hts, Ht. simpl.
  unfold finish_or_issue.
  assert (Hw : holonomic_robot_in_angle_window (traj w1) (a_win (traj w1))
               = holonomic_robot_in_angle_window (traj w) (a_win (traj w))).
  { unfold holonomic_robot_in_angle_window. now rewrite Hat, Hp, Haw. }
  rewrite Hm, Hw.
  destruct (is_MOVING_IDLE (moving_state (traj w))
            && holonomic_robot_in_angle_window (traj w) (a_win (traj w))) eqn:E.
  - exfalso. apply andb_true_iff in E. destruct E as [E1 E2].
    apply Hfin. split; [| exact E2].
    destruct (moving_state (traj w)); simpl in E1; congruence.
  - rewrite set_consigns_calls, Hc.
    unfold turning_step. rewrite Hts, Ht. eauto.
Qed.

Lemma facepoint_consign_is_the_constant_1_facing_left :
  let w := facing_example (vect2.mk 0 1) in
  turning_step (traj w) = 1%Z
  /\ (~ (moving_state (traj w) = MOVING_IDLE
         /\ holonomic_robot_in_angle_window (traj w) (a_win (traj w)) = true) ->
      exists v a : Z,
        calls (holonomic_trajectory_manager_event w)
        = calls w ++ [rsh_set_speed v; rsh_set_direction_int a;
                      rsh_set_rotation_speed 1]).
Proof.
  intros w.
  apply (facepoint_consign_is_the_constant_1 w).
  reflexivity.
Defined.

(** ** The circular arc *)

Lemma circle_point_on_circle (t : h_trajectory) (x y inc : R) :
  0 <= radius t -> on_circle t (circle_point t x y inc).
Proof.
  intros Hr. unfold on_circle, circle_point, vect2_dist_cart, C.pow2; simpl.
  set (th := C.atan2f (y - vect2.y (circle_center t)) (x - vect2.x (circle_center t)) - inc).
  pose proof (sin2_cos2 th) as Hsc. unfold Rsqr in Hsc.
  replace ((vect2.x (circle_center t) + cos th * radius t - vect2.x (circle_center t))
           * (vect2.x (circle_center t) + cos th * radius t - vect2.x (circle_center t))
           + (vect2.y (circle_center t) + sin th * radius t - vect2.y (circle_center t))
             * (vect2.y (circle_center t) + sin th * radius t - vect2.y (circle_center t)))
    with ((sin th * sin th + cos th * cos th) * (radius t * radius t)) by ring.
  rewrite Hsc, Rmult_1_l. now apply sqrt_square.
Qed.

Lemma on_circle_ext (t t' : h_trajectory) (p : vect2_cart) :
  circle_center t' = circle_center t -> radius t' = radius t ->
  on_circle t p -> on_circle t' p.
Proof. unfold on_circle; intros -> ->; auto. Qed.

Lemma circle_tick_keeps_keyframe_on_circle (w : world) :
  moving_state (traj w) = MOVING_CIRCLE ->
  0 <= radius (traj w) ->
  keyframe_ok w ->
  let w' := holonomic_trajectory_manager_event w in
  moving_state (traj w') = MOVING_CIRCLE
  /\ circle_center (traj w') = circle_center (traj w)
  /\ radius (traj w') = radius (traj w)
  /\ on_circle (traj w) (keyframe w')
  /\ on_circle (traj w) (xy_target (traj w')).
Proof.
  intros Hm Hr Hk.
  assert (Hk1 : exists k, on_circle (traj w) k
                /\ moving_step w
                   = (with_traj (set_xy_target k) (with_keyframe k w),
                      (SPEED_ROBOT / 5)%Z,
                      C.trunc (TO_DEG (vect2_angle_vec_x_rad_cart
                         (vect2.mk
                            (vect2.x (xy_target (traj w)) - pos_x (position (traj w)))
                            (vect2.y (xy_target (traj w)) - pos_y (position (traj w)))))))).
  { unfold moving_step. rewrite Hm.
    destruct (C.ltb (vect2.x (keyframe w)) 0) eqn:E.
    - eexists. split; [apply circle_point_on_circle; exact Hr | reflexivity].
    - exists (keyframe w). split.
      + destruct Hk as [Hi | Hc]; [| exact Hc].
        rewrite Hi in E. apply ltb_false_iff in E. simpl in E. lra.
      + destruct w; reflexivity. }
  destruct Hk1 as (k & Hon & Hstep).
  intros w'. subst w'. unfold holonomic_trajectory_manager_event.
  rewrite Hstep. cbn [traj with_traj with_keyframe].
  set (t1 := set_xy_target k (traj w)).
  assert (Hon' : forall x y inc, on_circle (traj w) (circle_point t1 x y inc)).
  { intros. apply on_circle_ext with t1; try reflexivity.
    apply circle_point_on_circle. exact Hr. }
  assert (Hm1 : moving_state t1 = MOVING_CIRCLE) by exact Hm.
  destruct (is_TURNING_IDLE (turning_state t1)
            && holonomic_robot_in_xy_window t1 (d_win t1)).
  - rewrite Hm1. cbn [is_MOVING_CIRCLE].
    match goal with
    | |- context [if ?c then _ else _] => destruct c
    end.
    + match goal with
      | |- context [holonomic_delete_event ?u] =>
          destruct (delete_event_frame u) as (Hkf & Hms & _ & Hxy & Hcc & Hrr & _)
      end.
      rewrite Hkf, Hms, Hxy, Hcc, Hrr. simpl. auto.
    + simpl. auto.
  - unfold finish_or_issue.
    change (traj (with_traj (set_xy_target k) (with_keyframe k w))) with t1.
    rewrite Hm1. cbn [is_MOVING_IDLE andb].
    match goal with
    | |- context [set_consigns_to_rsh ?s ?a ?o ?u] =>
        destruct (set_consigns_frame s a o u) as (Htr & Hkf)
    end.
    rewrite Htr, Hkf. simpl. auto.
Qed.

(** X18: A keyframe whose abscissa is not negative is not recomputed: the tick
    writes it into [xy_target] as it stands, also when it was left by an arc
    around another centre (the source notes: re-init le keyframe). *)
Lemma circle_tick_writes_the_kept_keyframe (w : world) :
  moving_state (traj w) = MOVING_CIRCLE ->
  0 <= vect2.x (keyframe w) ->
  xy_target (traj (holonomic_trajectory_manager_event w)) = keyframe w.
Proof.
  intros Hm Hx. apply ltb_false_iff in Hx.
  unfold holonomic_trajectory_manager_event, moving_step.
  rewrite Hm, Hx. cbn [traj with_traj].
  set (t1 := set_xy_target (keyframe w) (traj w)).
  assert (Hm1 : moving_state t1 = MOVING_CIRCLE) by exact Hm.
  destruct (is_TURNING_IDLE (turning_state t1)
            && holonomic_robot_in_xy_window t1 (d_win t1)).
  - rewrite Hm1. cbn [is_MOVING_CIRCLE].
    match goal with
    | |- context [if ?c then _ else _] => destruct c
    end.
    + match goal with
      | |- context [holonomic_delete_event ?u] =>
          destruct (delete_event_frame u) as (_ & _ & _ & Hxy & _)
      end.
      rewrite Hxy. reflexivity.
    + reflexivity.
  - unfold finish_or_issue.
    change (traj (with_traj (set_xy_target (keyframe w)) w)) with t1.
    rewrite Hm1. cbn [is_MOVING_IDLE andb].
    match goal with
    | |- context [set_consigns_to_rsh ?s ?a ?o ?u] =>
        destruct (set_consigns_frame s a o u) as (Htr & _)
    end.
    rewrite Htr. reflexivity.
Qed.

Lemma circle_run_invariant (ps : list holonomic_robot_position) (w : world) :
  moving_state (traj w) = MOVING_CIRCLE ->
  0 <= radius (traj w) ->
  keyframe_ok w ->
  let w' := run_ticks ps w in
  moving_state (traj w') = MOVING_CIRCLE
  /\ circle_center (traj w') = circle_center (traj w)
  /\ radius (traj w') = radius (traj w)
  /\ keyframe_ok w'.
Proof.
  revert w. induction ps as [| p ps IH]; intros w Hm Hr Hk; simpl.
  - auto.
  - set (w0 := with_traj (set_position p) w).
    assert (Hk0 : keyframe_ok w0) by exact Hk.
    destruct (circle_tick_keeps_keyframe_on_circle w0 Hm Hr Hk0)
      as (Hm1 & Hc1 & Hr1 & Hkf1 & _).
    assert (Hr1' : 0 <= radius (traj (tick p w))) by (unfold tick; fold w0; rewrite Hr1; exact Hr).
    assert (Hk1 : keyframe_ok (tick p w)).
    { right. unfold tick. fold w0. eapply on_circle_ext; [| | exact Hkf1]; auto. }
    destruct (IH (tick p w) Hm1 Hr1' Hk1) as (Hm2 & Hc2 & Hr2 & Hk2).
    unfold tick in *. fold w0 in Hc2, Hr2 |- *.
    rewrite Hc2, Hr2, Hc1, Hr1. auto.
Qed.

(** X23: along a run of ticks in CIRCLE mode with a fixed centre and a fixed
    radius that starts from the keyframe as the program initialises it, or
    from one a former tick of the same arc has left, the keyframe written
    into [xy_target] lies on the circle: its Euclidean distance from
    [circle_center] equals [radius]. *)
Theorem circle_keyframe_lies_on_the_circle
    (ps : list holonomic_robot_position) (p : holonomic_robot_position) (w : world) :
  moving_state (traj w) = MOVING_CIRCLE ->
  0 <= radius (traj w) ->
  keyframe w = keyframe_init \/ on_circle (traj w) (keyframe w) ->
  let w' := run_ticks (ps ++ [p]) w in
  circle_center (traj w') = circle_center (traj w)
  /\ radius (traj w') = radius (traj w)
  /\ vect2_dist_cart (xy_target (traj w')) (circle_center (traj w)) = radius (traj w).
Proof.
  intros Hm Hr Hk w'. subst w'. unfold run_ticks. rewrite fold_left_app. simpl.
  fold (run_ticks ps w).
  destruct (circle_run_invariant ps w Hm Hr Hk) as (Hm1 & Hc1 & Hr1 & Hk1).
  set (w1 := run_ticks ps w) in *.
  set (w0 := with_traj (set_position p) w1).
  assert (Hr0 : 0 <= radius (traj w0)) by (simpl; rewrite Hr1; exact Hr).
  destruct (circle_tick_keeps_keyframe_on_circle w0 Hm1 Hr0 Hk1)
    as (_ & Hc2 & Hr2 & _ & Hxy).
  unfold tick. fold w0. rewrite Hc2, Hr2. simpl. rewrite Hc1, Hr1.
  repeat split. unfold on_circle in Hxy. simpl in Hxy.
  rewrite Hc1, Hr1 in Hxy. exact Hxy.
Qed.

Lemma circle_keyframe_lies_on_the_circle_first_tick :
  let w := mk_world
             (mk_traj MOVING_CIRCLE TURNING_IDLE (vect2.mk 0 0) 0 (vect2.mk 0 0)
                (PI / 2) 100 (vect2.mk 0 0) 10 0 0 (mk_position 100 0 0 0 0) 3)
             0 keyframe_init [3%Z] [] in
  let w' := run_ticks ([] ++ [mk_position 100 0 0 0 0]) w in
  circle_center (traj w') = circle_center (traj w)
  /\ radius (traj w') = radius (traj w)
  /\ vect2_dist_cart (xy_target (traj w')) (circle_center (traj w)) = radius (traj w).
Proof.
  intros w.
  apply (circle_keyframe_lies_on_the_circle [] (mk_position 100 0 0 0 0) w).
  - reflexivity.
  - simpl; lra.
  - left; reflexivity.
Defined.

Lemma atan2f_on_the_axes :
  C.atan2f (0 - 0) (100 - 0) = 0 /\ C.atan2f (-100 - 0) (0 - 0) = - (PI / 2).
Proof.
  unfold C.atan2f. split.
  - destruct (Rlt_dec 0 (100 - 0)) as [_ | H]; [| exfalso; lra].
    replace ((0 - 0) / (100 - 0)) with 0 by (field; lra). apply atan_0.
  - destruct (Rlt_dec 0 (0 - 0)) as [H | _]; [exfalso; lra |].
    destruct (Rlt_dec (0 - 0) 0) as [H | _]; [exfalso; lra |].
    destruct (Rlt_dec 0 (-100 - 0)) as [H | _]; [exfalso; lra |].
    destruct (Rlt_dec (-100 - 0) 0) as [_ | H]; [reflexivity | exfalso; lra].
Qed.

Lemma sqrt_20000_ge_10 : 10 <= sqrt 20000.
Proof.
  rewrite <- (sqrt_square 10) at 1 by lra.
  apply sqrt_le_1_alt. lra.
Qed.

(** When the arrival gate holds in CIRCLE mode and the arrival point the
    regulator computes is within [d_win], the tick is the stop sequence:
    the trajectory is marked done and the task, if any, deregistered. *)
Lemma circle_arrival_finishes (w : world) :
  moving_state (traj w) = MOVING_CIRCLE ->
  turning_state (traj w) = TURNING_IDLE ->
  let x := pos_x (position (traj w)) in
  let y := pos_y (position (traj w)) in
  let w1 := fst (fst (moving_step w)) in
  holonomic_robot_in_xy_window (traj w1) (d_win (traj w)) = true ->
  vect2_dist_cart (circle_point (traj w) x y (arc_angle (traj w))) (vect2.mk x y)
  < d_win (traj w) ->
  holonomic_trajectory_manager_event w
  = holonomic_delete_event (with_keyframe (circle_point (traj w) x y ANGLE_INC) w1).
Proof.
  intros Hm Ht x y w1 Hwin Hnear. subst w1.
  unfold holonomic_trajectory_manager_event.
  revert Hwin. unfold moving_step. rewrite Hm.
  destruct (C.ltb (vect2.x (keyframe w)) 0); cbn [fst traj with_traj with_keyframe];
    intros Hwin;
    cbn [turning_state moving_state d_win set_xy_target arc_angle position];
    rewrite Ht, Hm; cbn [is_TURNING_IDLE is_MOVING_CIRCLE andb];
    cbn [d_win set_xy_target] in Hwin; rewrite Hwin;
    apply ltb_true_iff in Hnear; fold x y;
    (match goal with
     | |- (if C.ltb (vect2_dist_cart ?a ?b) ?c then _ else _) = _ =>
         change (C.ltb (vect2_dist_cart a b) c)
           with (C.ltb (vect2_dist_cart
                          (circle_point (traj w) x y (arc_angle (traj w)))
                          (vect2.mk x y)) (d_win (traj w)))
     end);
    rewrite Hnear; reflexivity.
Qed.

(** X19: For a pose on the circle, at the argument [atan2f] gives, the arrival
    point the regulator computes is always one chord of the whole arc away:
    the distance depends on [radius] and [arc_angle] only, not on how far
    the robot has gone. *)
Lemma circle_arrival_distance_is_the_chord (t : h_trajectory) (x y : R) :
  let th := C.atan2f (y - vect2.y (circle_center t)) (x - vect2.x (circle_center t)) in
  x = vect2.x (circle_center t) + cos th * radius t ->
  y = vect2.y (circle_center t) + sin th * radius t ->
  C.pow2 (vect2_dist_cart (circle_point t x y (arc_angle t)) (vect2.mk x y))
  = radius t * radius t * (2 - 2 * cos (arc_angle t)).
Proof.
  intros th Hx Hy.
  unfold vect2_dist_cart, circle_point. cbn [vect2.x vect2.y]. fold th.
  unfold C.pow2 at 1. rewrite sqrt_sqrt
    by (unfold C.pow2; apply Rplus_le_le_0_compat; apply Rle_0_sqr).
  clearbody th. subst x y.
  unfold C.pow2. rewrite cos_minus, sin_minus.
  pose proof (sin2_cos2 th) as H1. pose proof (sin2_cos2 (arc_angle t)) as H2.
  unfold Rsqr in H1, H2.
  set (c1 := cos th) in *. set (s1 := sin th) in *.
  set (c2 := cos (arc_angle t)) in *. set (s2 := sin (arc_angle t)) in *.
  replace (2 - 2 * c2)
    with ((s1 * s1 + c1 * c1) * (s2 * s2 + c2 * c2) + (s1 * s1 + c1 * c1)
          - 2 * c2 * (s1 * s1 + c1 * c1))
    by (rewrite H1, H2; ring).
  ring.
Qed.

(** C5, the code at the end of a quarter arc: the arrival point measured
    from the start of the arc, (100, 0), is (0, -100), where the robot
    stands; the regulator measures [arc_angle] from the robot's present
    position instead, gets (-100, 0), farther than [d_win], and returns with
    the task still armed, the trajectory not marked done and no consign
    issued. *)
Theorem circle_arrival_measured_from_current_pose :
  let w := quarter_arc_end in
  let t := traj w in
  let pose := vect2.mk (pos_x (position t)) (pos_y (position t)) in
  let w' := holonomic_trajectory_manager_event w in
  circle_point t 100 0 (arc_angle t) = pose
  /\ is_TURNING_IDLE (turning_state t) && holonomic_robot_in_xy_window t (d_win t) = true
  /\ circle_point t (pos_x (position t)) (pos_y (position t)) (arc_angle t)
     = vect2.mk (-100) 0
  /\ end_of_traj (traj w') = 0%Z
  /\ scheduler_task (traj w') = 3%Z
  /\ tasks w' = [3%Z]
  /\ calls w' = [].
Proof.
  destruct atan2f_on_the_axes as [Hstart Hnow].
  assert (Hp0 : circle_point (traj quarter_arc_end) 100 0 (PI / 2) = vect2.mk 0 (-100)).
  { unfold circle_point; simpl. rewrite Hstart.
    replace (0 - PI / 2) with (- (PI / 2)) by lra.
    rewrite cos_neg, sin_neg, cos_PI2, sin_PI2. f_equal; lra. }
  assert (Hp1 : circle_point (traj quarter_arc_end) 0 (-100) (PI / 2) = vect2.mk (-100) 0).
  { unfold circle_point; simpl. rewrite Hnow.
    replace (- (PI / 2) - PI / 2) with (- PI) by lra.
    rewrite cos_neg, sin_neg, cos_PI, sin_PI. f_equal; lra. }
  assert (Hwin : holonomic_robot_in_xy_window (traj quarter_arc_end) 10 = true).
  { unfold holonomic_robot_in_xy_window, vect2_dist_cart, C.pow2; simpl.
    apply ltb_true_iff.
    replace ((0 - 0) * (0 - 0) + (-100 - -100) * (-100 - -100)) with 0 by lra.
    rewrite sqrt_0. lra. }
  assert (Hfar : C.ltb (vect2_dist_cart (vect2.mk (-100) 0) (vect2.mk 0 (-100))) 10 = false).
  { unfold vect2_dist_cart, C.pow2; simpl. apply ltb_false_iff.
    replace ((-100 - 0) * (-100 - 0) + (0 - -100) * (0 - -100)) with 20000 by lra.
    apply sqrt_20000_ge_10. }
  assert (Hstay : C.ltb (vect2.x (keyframe quarter_arc_end)) 0 = false).
  { apply ltb_false_iff. simpl. lra. }
  intros w t pose w'. subst w t pose w'.
  split; [exact Hp0 |].
  split; [simpl (d_win _); rewrite Hwin; reflexivity |].
  split; [exact Hp1 |].
  unfold holonomic_trajectory_manager_event, moving_step.
  change (moving_state (traj quarter_arc_end)) with MOVING_CIRCLE.
  cbv iota. rewrite Hstay. cbv iota beta.
  change (with_traj (set_xy_target (keyframe quarter_arc_end)) quarter_arc_end)
    with quarter_arc_end.
  cbn [traj with_keyframe].
  change (turning_state (traj quarter_arc_end)) with TURNING_IDLE.
  change (moving_state (traj quarter_arc_end)) with MOVING_CIRCLE.
  change (d_win (traj quarter_arc_end)) with 10.
  change (arc_angle (traj quarter_arc_end)) with (PI / 2).
  change (pos_x (position (traj quarter_arc_end))) with 0.
  change (pos_y (position (traj quarter_arc_end))) with (-100).
  rewrite Hwin, Hp1, Hfar. cbn [is_TURNING_IDLE is_MOVING_CIRCLE andb].
  repeat split.
Qed.

(** The keyframe a tick of an arc writes and the one it leaves. *)
Lemma circle_tick_target (w : world) :
  moving_state (traj w) = MOVING_CIRCLE ->
  let x := pos_x (position (traj w)) in
  let y := pos_y (position (traj w)) in
  let k := if C.ltb (vect2.x (keyframe w)) 0
           then circle_point (traj w) x y ANGLE_INC else keyframe w in
  let w' := holonomic_trajectory_manager_event w in
  xy_target (traj w') = k
  /\ (keyframe w' = k \/ keyframe w' = circle_point (traj w) x y ANGLE_INC).
Proof.
  intros Hm x y k w'. subst w'.
  assert (Hstep : exists a,
            moving_step w
            = (with_traj (set_xy_target k) (with_keyframe k w),
               (SPEED_ROBOT / 5)%Z, a)).
  { unfold moving_step. rewrite Hm. subst k. fold x y.
    destruct (C.ltb (vect2.x (keyframe w)) 0).
    - eexists. reflexivity.
    - eexists. destruct w; reflexivity. }
  destruct Hstep as (a & Hstep).
  unfold holonomic_trajectory_manager_event.
  rewrite Hstep. cbn [traj with_traj with_keyframe].
  set (t1 := set_xy_target k (traj w)).
  assert (Hm1 : moving_state t1 = MOVING_CIRCLE) by exact Hm.
  destruct (is_TURNING_IDLE (turning_state t1)
            && holonomic_robot_in_xy_window t1 (d_win t1)).
  - rewrite Hm1. cbn [is_MOVING_CIRCLE].
    match goal with
    | |- context [if ?c then _ else _] => destruct c
    end.
    + match goal with
      | |- context [holonomic_delete_event ?u] =>
          destruct (delete_event_frame u) as (Hkf & _ & _ & Hxy & _)
      end.
      rewrite Hxy, Hkf. split; [reflexivity | right; reflexivity].
    + split; [reflexivity | right; reflexivity].
  - unfold finish_or_issue.
    change (traj (with_traj (set_xy_target k) (with_keyframe k w))) with t1.
    rewrite Hm1. cbn [is_MOVING_IDLE andb].
    match goal with
    | |- context [set_consigns_to_rsh ?s ?a ?o ?u] =>
        destruct (set_consigns_frame s a o u) as (Htr & Hkf)
    end.
    rewrite Htr, Hkf. split; [reflexivity | left; reflexivity].
Qed.

(** C6, the code on the first tick of a second arc: the program starts an
    arc of radius 100 around the origin and runs one tick, which leaves the
    static keyframe on that circle with a positive abscissa; the trajectory
    is then given an arc of radius 10 around (1000, 1000). The static
    keyframe is never re-initialised, so the first tick of the new arc
    writes the old keyframe into [xy_target]: a point at least 900 away from
    the new centre, not on the circle of radius 10. *)
Theorem circle_keyframe_of_a_former_arc_is_off_the_circle :
  let w1 := tick (mk_position 100 0 0 0 0) first_arc_start in
  let wB := with_traj (fun _ => second_arc) w1 in
  let w2 := holonomic_trajectory_manager_event wB in
  moving_state (traj wB) = MOVING_CIRCLE
  /\ on_circle (traj first_arc_start) (keyframe w1)
  /\ 0 < vect2.x (keyframe w1)
  /\ xy_target (traj w2) = keyframe w1
  /\ radius (traj wB) = 10
  /\ 900 <= vect2_dist_cart (xy_target (traj w2)) (circle_center (traj wB))
  /\ ~ on_circle (traj wB) (xy_target (traj w2)).
Proof.
  intros w1 wB w2.
  destruct atan2f_on_the_axes as [Hstart _].
  assert (Hk1 : keyframe w1
                = vect2.mk (0 + cos (0 - ANGLE_INC) * 100) (0 + sin (0 - ANGLE_INC) * 100)).
  { subst w1. unfold tick.
    set (w0 := with_traj (set_position (mk_position 100 0 0 0 0)) first_arc_start).
    assert (Hm0 : moving_state (traj w0) = MOVING_CIRCLE) by reflexivity.
    destruct (circle_tick_target w0 Hm0) as [_ Hk].
    assert (Hneg : C.ltb (vect2.x (keyframe w0)) 0 = true)
      by (apply ltb_true_iff; simpl; lra).
    rewrite Hneg in Hk.
    assert (Hp : circle_point (traj w0) (pos_x (position (traj w0)))
                   (pos_y (position (traj w0))) ANGLE_INC
                 = vect2.mk (0 + cos (0 - ANGLE_INC) * 100)
                     (0 + sin (0 - ANGLE_INC) * 100)).
    { unfold circle_point. simpl. rewrite Hstart. reflexivity. }
    rewrite Hp in Hk. destruct Hk as [Hk | Hk]; exact Hk. }
  assert (Hx : 0 < vect2.x (keyframe w1)).
  { rewrite Hk1. simpl. pose proof PI_gt_3 as H3.
    assert (Hc : 0 < cos (0 - ANGLE_INC))
      by (apply cos_gt_0; unfold ANGLE_INC; lra).
    lra. }
  assert (HmB : moving_state (traj wB) = MOVING_CIRCLE) by reflexivity.
  assert (Hxy : xy_target (traj w2) = keyframe w1).
  { subst w2. destruct (circle_tick_target wB HmB) as [Ht _].
    change (keyframe wB) with (keyframe w1) in Ht.
    replace (C.ltb (vect2.x (keyframe w1)) 0) with false in Ht
      by (symmetry; apply ltb_false_iff; lra).
    exact Ht. }
  assert (Hfar : 900 <= vect2_dist_cart (keyframe w1) (vect2.mk 1000 1000)).
  { rewrite Hk1. unfold vect2_dist_cart, C.pow2. simpl.
    pose proof (COS_bound (0 - ANGLE_INC)) as Hc.
    set (c := cos (0 - ANGLE_INC)) in *. set (sn := sin (0 - ANGLE_INC)).
    rewrite <- (sqrt_square 900) at 1 by lra.
    apply sqrt_le_1_alt.
    assert (Hu : 900 * 900 <= (1000 - c * 100) * (1000 - c * 100))
      by (apply Rmult_le_compat; lra).
    pose proof (Rle_0_sqr (0 + sn * 100 - 1000)) as Hv. unfold Rsqr in Hv.
    replace ((0 + c * 100 - 1000) * (0 + c * 100 - 1000))
      with ((1000 - c * 100) * (1000 - c * 100)) by ring.
    lra. }
  split; [exact HmB |].
  split.
  { rewrite Hk1.
    change (vect2.mk (0 + cos (0 - ANGLE_INC) * 100) (0 + sin (0 - ANGLE_INC) * 100))
      with (vect2.mk
              (vect2.x (circle_center (traj first_arc_start))
               + cos (0 - ANGLE_INC) * radius (traj first_arc_start))
              (vect2.y (circle_center (traj first_arc_start))
               + sin (0 - ANGLE_INC) * radius (traj first_arc_start))).
    rewrite <- Hstart.
    apply (circle_point_on_circle (traj first_arc_start) 100 0 ANGLE_INC).
    simpl. lra. }
  split; [exact Hx |].
  split; [exact Hxy |].
  split; [reflexivity |].
  rewrite Hxy.
  split; [exact Hfar |].
  unfold on_circle.
  change (circle_center (traj wB)) with (vect2.mk 1000 1000).
  change (radius (traj wB)) with 10. lra.
Qed.

(** * Further properties of the module *)

(** ** Windows at their edges *)

(** X1: The distance window is strict and monotone: a window that is not
    positive is never entered, not even on the target itself; a robot in a
    window is in every wider one; on the target every positive window
    holds. *)
Theorem xy_window_edges (t : h_trajectory) (d1 d2 : R) :
  (d1 <= 0 -> holonomic_robot_in_xy_window t d1 = false)
  /\ (holonomic_robot_in_xy_window t d1 = true -> d1 <= d2 ->
      holonomic_robot_in_xy_window t d2 = true)
  /\ (vect2.mk (pos_x (position t)) (pos_y (position t)) = xy_target t ->
      0 < d1 -> holonomic_robot_in_xy_window t d1 = true).
Proof.
  unfold holonomic_robot_in_xy_window.
  set (d := vect2_dist_cart _ _).
  assert (Hd : 0 <= d) by apply sqrt_pos.
  repeat split.
  - intros H. apply ltb_false_iff. lra.
  - intros H1 H2. apply ltb_true_iff in H1. apply ltb_true_iff. lra.
  - intros He Hp. apply ltb_true_iff. subst d. rewrite He.
    unfold vect2_dist_cart, C.pow2.
    replace ((vect2.x (xy_target t) - vect2.x (xy_target t))
             * (vect2.x (xy_target t) - vect2.x (xy_target t))
             + (vect2.y (xy_target t) - vect2.y (xy_target t))
               * (vect2.y (xy_target t) - vect2.y (xy_target t)))
      with 0 by ring.
    rewrite sqrt_0. exact Hp.
Qed.

(** X2: The angle window on headings that are not normalised: a heading error
    of a full turn or more is reported in-window for every positive
    [a_win], however far from the target the heading is modulo 2*pi; within
    a full turn a window that is not positive is never entered; a window
    wider than 2*pi always holds. *)
Theorem angle_window_edges (t : h_trajectory) (a_win_rad : R) :
  let d_a := a_target t - pos_a_rad (position t) in
  (2 * PI <= Rabs d_a -> 0 < a_win_rad ->
   holonomic_robot_in_angle_window t a_win_rad = true)
  /\ (Rabs d_a <= 2 * PI -> a_win_rad <= 0 ->
      holonomic_robot_in_angle_window t a_win_rad = false)
  /\ (2 * PI < a_win_rad -> holonomic_robot_in_angle_window t a_win_rad = true).
Proof.
  intros d_a. pose proof PI_RGT_0 as Hpi. pose proof (Rabs_pos d_a) as Ha.
  unfold holonomic_robot_in_angle_window. fold d_a.
  rewrite ABS_Rabs. unfold C.M_PI.
  repeat split; intros;
    destruct (C.ltb (Rabs d_a) PI) eqn:E;
    [apply ltb_true_iff in E | apply ltb_false_iff in E
    |apply ltb_true_iff in E | apply ltb_false_iff in E
    |apply ltb_true_iff in E | apply ltb_false_iff in E];
    first [apply ltb_true_iff; lra | apply ltb_false_iff; lra].
Qed.

(** X3: The angle window does not depend on the side the error lies on:
    exchanging the target and the heading gives the same answer. *)
Theorem angle_window_symmetric (t t' : h_trajectory) (a_win_rad : R) :
  a_target t' = pos_a_rad (position t) ->
  pos_a_rad (position t') = a_target t ->
  holonomic_robot_in_angle_window t' a_win_rad
  = holonomic_robot_in_angle_window t a_win_rad.
Proof.
  intros H1 H2. unfold holonomic_robot_in_angle_window.
  rewrite H1, H2, !ABS_Rabs.
  replace (pos_a_rad (position t) - a_target t)
    with (- (a_target t - pos_a_rad (position t))) by ring.
  rewrite Rabs_Ropp. reflexivity.
Qed.

Lemma angle_window_symmetric_on_the_wraparound :
  holonomic_robot_in_angle_window
    (mk_traj MOVING_IDLE TURNING_CAP (vect2.mk 0 0) (2 * PI - 5 / 100) (vect2.mk 0 0)
       0 0 (vect2.mk 0 0) 0 (3 / 10) 0 (mk_position 0 0 (5 / 100) 0 0) (-1))
    (3 / 10)
  = holonomic_robot_in_angle_window wraparound_example (3 / 10).
Proof.
  apply (angle_window_symmetric wraparound_example); reflexivity.
Defined.

(** ** Angle utilities, beyond their nominal range *)

(** X4: [holonomic_simple_modulo_2pi] corrects by a quarter turn: its result
    differs from the argument by 0 or pi/2, and it lies in [-pi, pi] exactly
    for the arguments of [-3*pi/2, 3*pi/2], not for all of [-3*pi, 3*pi]. *)
Theorem simple_modulo_2pi_range (a : R) :
  (holonomic_simple_modulo_2pi a = a
   \/ holonomic_simple_modulo_2pi a = a + PI / 2
   \/ holonomic_simple_modulo_2pi a = a - PI / 2)
  /\ (- PI <= holonomic_simple_modulo_2pi a <= PI
      <-> - (3 * PI / 2) <= a <= 3 * PI / 2).
Proof.
  pose proof PI_RGT_0.
  unfold holonomic_simple_modulo_2pi; by_cases_on_comparisons;
    (split; [auto | split; intros; lra]).
Qed.




(** X6: [holonomic_angle_2_x_rad] on normalised angles: with the wished angle
    and the heading both in (-pi, pi], a difference of -pi or more gives the
    shorter rotation, in [-pi, pi] and equal to the difference or to the
    difference less 2*pi; a difference below -pi gives 2*pi less the
    difference, a value above 3*pi. *)
Theorem angle_2_x_rad_on_normalised_angles (t : h_trajectory) (a : R) :
  - PI < a <= PI ->
  - PI < pos_a_rad (position t) <= PI ->
  let d_a := a - pos_a_rad (position t) in
  let r := holonomic_angle_2_x_rad t a in
  (- PI <= d_a -> - PI <= r <= PI /\ (r = d_a \/ r = d_a - 2 * PI))
  /\ (d_a < - PI -> r = 2 * PI - d_a /\ 3 * PI < r).
Proof.
  intros Ha Hh d_a r. subst r d_a. unfold holonomic_angle_2_x_rad. cbv zeta.
  pose proof PI_RGT_0.
  unfold holonomic_best_delta_angle_rad; by_cases_on_comparisons;
    (split; intros Hd;
     [split; [lra | first [left; lra | right; lra]] | split; lra]).
Qed.

Lemma angle_2_x_rad_from_3_to_minus_3 :
  let t := mk_traj MOVING_IDLE TURNING_CAP (vect2.mk 0 0) (-3) (vect2.mk 0 0)
             0 0 (vect2.mk 0 0) 0 (3 / 10) 0 (mk_position 0 0 3 0 0) (-1) in
  let d_a := - 3 - pos_a_rad (position t) in
  let r := holonomic_angle_2_x_rad t (- 3) in
  (- PI <= d_a -> - PI <= r <= PI /\ (r = d_a \/ r = d_a - 2 * PI))
  /\ (d_a < - PI -> r = 2 * PI - d_a /\ 3 * PI < r).
Proof.
  intros t.
  apply (angle_2_x_rad_on_normalised_angles t (- 3));
    pose proof PI_gt_3; simpl; lra.
Defined.

Lemma atan2f_range (y x : R) : - PI < C.atan2f y x <= PI.
Proof.
  pose proof PI_RGT_0 as Hpi. unfold C.atan2f.
  destruct (Rlt_dec 0 x) as [Hx | Hx].
  { pose proof (atan_bound (y / x)). lra. }
  destruct (Rlt_dec x 0) as [Hx' | Hx'].
  - assert (Hi : / x < 0) by (apply Rinv_lt_0_compat; exact Hx').
    pose proof (atan_bound (y / x)) as Hb.
    destruct (Rle_dec 0 y) as [Hy | Hy].
    + assert (Hq : y / x <= 0) by (unfold Rdiv; nra).
      assert (Ha : atan (y / x) <= 0).
      { destruct Hq as [Hq | Hq].
        - left. rewrite <- atan_0. apply atan_increasing. exact Hq.
        - rewrite Hq, atan_0. lra. }
      lra.
    + assert (Hq : 0 < y / x) by (unfold Rdiv; nra).
      assert (Ha : 0 < atan (y / x)).
      { rewrite <- atan_0. apply atan_increasing. exact Hq. }
      lra.
  - destruct (Rlt_dec 0 y); [lra |]. destruct (Rlt_dec y 0); lra.
Qed.

(** X7: [holonomic_angle_facepoint_rad] for a heading in (-pi, pi]: whatever
    the point, also the null vector, the result is either a rotation of
    [-pi, pi] or, when the angle of the point is more than pi below the
    heading, a value above 3*pi. *)
Theorem angle_facepoint_rad_range (t : h_trajectory) (fpc : vect2_cart) :
  - PI < pos_a_rad (position t) <= PI ->
  let d_a := vect2_angle_vec_x_rad_cart fpc - pos_a_rad (position t) in
  let r := holonomic_angle_facepoint_rad t fpc in
  (- PI <= d_a -> - PI <= r <= PI)
  /\ (d_a < - PI -> 3 * PI < r)
  /\ (vect2.x fpc = 0 -> vect2.y fpc = 0 ->
      r = holonomic_best_delta_angle_rad (- pos_a_rad (position t))).
Proof.
  intros Hh d_a r. subst r d_a. unfold holonomic_angle_facepoint_rad. cbv zeta.
  unfold vect2_angle_vec_x_rad_cart.
  pose proof (atan2f_range (vect2.y fpc) (vect2.x fpc)) as Ha.
  pose proof PI_RGT_0.
  split; [| split].
  - set (a := C.atan2f _ _) in *.
    unfold holonomic_best_delta_angle_rad; by_cases_on_comparisons; intros; lra.
  - set (a := C.atan2f _ _) in *.
    unfold holonomic_best_delta_angle_rad; by_cases_on_comparisons; intros; lra.
  - intros -> ->. f_equal.
    unfold C.atan2f.
    destruct (Rlt_dec 0 0); [lra |]. lra.
Qed.

Lemma angle_facepoint_rad_range_heading_3 :
  let t := mk_traj MOVING_IDLE TURNING_FACEPOINT (vect2.mk 0 0) 0 (vect2.mk 0 0)
             0 0 (vect2.mk 0 (-1)) 0 (3 / 10) 0 (mk_position 0 0 3 0 0) (-1) in
  let fpc := vect2.mk 0 (-1) in
  let d_a := vect2_angle_vec_x_rad_cart fpc - pos_a_rad (position t) in
  let r := holonomic_angle_facepoint_rad t fpc in
  (- PI <= d_a -> - PI <= r <= PI)
  /\ (d_a < - PI -> 3 * PI < r)
  /\ (vect2.x fpc = 0 -> vect2.y fpc = 0 ->
      r = holonomic_best_delta_angle_rad (- pos_a_rad (position t))).
Proof.
  intros t fpc.
  apply (angle_facepoint_rad_range t fpc).
  pose proof PI_gt_3; simpl; lra.
Defined.

(** ** The ramp under a constant consign *)

Lemma ramp_n_invariant (n : nat) (consign lo hi : Z) (w : world) :
  (C.INT32_MIN + 40 <= lo)%Z -> (hi <= C.INT32_MAX - 40)%Z ->
  (lo <= consign <= hi)%Z ->
  (lo - 20 <= prev_speed w <= hi + 20)%Z ->
  let w' := ramp_n n consign w in
  (lo - 20 <= prev_speed w' <= hi + 20
   /\ Z.abs (prev_speed w' - consign)
      <= Z.max 20 (Z.abs (prev_speed w - consign) - 20 * Z.of_nat n)
   /\ (prev_speed w' - prev_speed w - 20 * Z.of_nat n) mod 40 = 0)%Z.
Proof.
  intros Hlo Hhi Hc. revert w.
  induction n as [| n IH]; intros w Hp.
  - cbn [ramp_n]. split; [lia | split; [lia |]].
    replace (prev_speed w - prev_speed w - 20 * Z.of_nat 0)%Z with 0%Z by lia.
    reflexivity.
  - cbn [ramp_n].
    assert (Hr : (C.INT32_MIN + 20 <= prev_speed w <= C.INT32_MAX - 20)%Z) by lia.
    destruct (do_ramp_value consign w Hr) as [Hv Hs].
    set (w1 := snd (holonomic_do_ramp consign w)) in *.
    rewrite Hv in Hs.
    assert (Hp1 : (lo - 20 <= prev_speed w1 <= hi + 20)%Z).
    { rewrite Hs. destruct (Z.geb_spec consign (prev_speed w)); lia. }
    destruct (IH w1 Hp1) as (Hb & Hd & Hm).
    split; [exact Hb |].
    split.
    + etransitivity; [exact Hd |]. rewrite Hs.
      destruct (Z.geb_spec consign (prev_speed w)); lia.
    + rewrite Hs in Hm.
      destruct (Z.geb_spec consign (prev_speed w)).
      * replace (prev_speed (ramp_n n consign w1) - prev_speed w
                 - 20 * Z.of_nat (S n))%Z
          with (prev_speed (ramp_n n consign w1) - (prev_speed w + 20)
                - 20 * Z.of_nat n)%Z by lia.
        exact Hm.
      * replace (prev_speed (ramp_n n consign w1) - prev_speed w
                 - 20 * Z.of_nat (S n))%Z
          with ((prev_speed (ramp_n n consign w1) - (prev_speed w - 20)
                 - 20 * Z.of_nat n) + (-1) * 40)%Z by lia.
        rewrite Z.mod_add by lia. exact Hm.
Qed.

(** X8: Under a constant consign the ramp closes the gap by 20 per call until
    the stored speed is within 20 of the consign, and then stays within 20
    of it for ever; it never rests, each call changing the stored speed by 20
    one way or the other (after [n] calls the change is 20*n modulo 40). *)
Theorem ramp_under_a_constant_consign (n : nat) (consign : Z) (w : world) :
  (C.INT32_MIN + 40 <= consign <= C.INT32_MAX - 40)%Z ->
  (C.INT32_MIN + 40 <= prev_speed w <= C.INT32_MAX - 40)%Z ->
  let w' := ramp_n n consign w in
  (Z.abs (prev_speed w' - consign)
   <= Z.max 20 (Z.abs (prev_speed w - consign) - 20 * Z.of_nat n)
   /\ (prev_speed w' - prev_speed w - 20 * Z.of_nat n) mod 40 = 0)%Z.
Proof.
  intros Hc Hp w'. subst w'.
  destruct (ramp_n_invariant n consign
              (Z.min consign (prev_speed w)) (Z.max consign (prev_speed w)) w)
    as (_ & H1 & H2); [lia | lia | lia | lia |].
  split; assumption.
Qed.

Lemma ramp_under_a_constant_consign_from_rest :
  let w := mk_world
             (mk_traj MOVING_STRAIGHT TURNING_IDLE (vect2.mk 1000 0) 0 (vect2.mk 0 0)
                0 0 (vect2.mk 0 0) 50 0 0 (mk_position 0 0 0 0 0) 3)
             0 keyframe_init [3%Z] [] in
  let w' := ramp_n 30 500 w in
  (Z.abs (prev_speed w' - 500)
   <= Z.max 20 (Z.abs (prev_speed w - 500) - 20 * Z.of_nat 30)
   /\ (prev_speed w' - prev_speed w - 20 * Z.of_nat 30) mod 40 = 0)%Z.
Proof.
  intros w.
  apply (ramp_under_a_constant_consign 30 500 w); simpl;
    unfold C.INT32_MIN, C.INT32_MAX; lia.
Defined.

(** ** The paths of a tick *)

Lemma moving_step_cases (w : world) :
  let w1 := fst (fst (moving_step w)) in
  (moving_state (traj w) <> MOVING_CIRCLE /\ w1 = w)
  \/ (moving_state (traj w) = MOVING_CIRCLE
      /\ exists k, w1 = with_traj (set_xy_target k) (with_keyframe k w)).
Proof.
  unfold moving_step. destruct (moving_state (traj w)) eqn:Em; simpl.
  - left. split; [discriminate | reflexivity].
  - right. split; [reflexivity |].
    destruct (C.ltb (vect2.x (keyframe w)) 0).
    + eexists. reflexivity.
    + exists (keyframe w). destruct w; reflexivity.
  - left. split; [discriminate | reflexivity].
Qed.

Lemma moving_step_consign_bounds (w : world) :
  (0 <= snd (fst (moving_step w)) <= 500)%Z.
Proof.
  unfold moving_step. destruct (moving_state (traj w)); cbn [fst snd].
  - destruct (distance2target_bounds (traj w)) as [H0 _].
    destruct (Z.ltb_spec (distance2target (traj w)) 250).
    + rewrite wrap32_small; unfold C.INT32_MIN, C.INT32_MAX; lia.
    + unfold SPEED_ROBOT. lia.
  - change (SPEED_ROBOT / 5)%Z with 100%Z. lia.
  - lia.
Qed.

Lemma regulator_cases (w : world) :
  let w1 := fst (fst (moving_step w)) in
  let w' := holonomic_trajectory_manager_event w in
  (exists s a o : Z, (0 <= s <= 500)%Z /\ w' = set_consigns_to_rsh s a o w1)
  \/ (exists u, w' = holonomic_delete_event u
        /\ ((exists k, u = with_keyframe k w1)
            \/ u = with_traj (set_moving_state MOVING_IDLE) w1
            \/ u = with_traj (set_turning_state TURNING_IDLE) w1))
  \/ (exists k, moving_state (traj w1) = MOVING_CIRCLE /\ w' = with_keyframe k w1).
Proof.
  intros w1 w'. subst w1 w'. unfold holonomic_trajectory_manager_event.
  pose proof (moving_step_consign_bounds w) as Hs.
  destruct (moving_step w) as [[w1 s] a]. cbn [fst snd] in *.
  assert (Hf : forall s', (0 <= s' <= 500)%Z ->
     (exists s0 a0 o0 : Z, (0 <= s0 <= 500)%Z
        /\ finish_or_issue s' a (turning_step (traj w1)) w1
           = set_consigns_to_rsh s0 a0 o0 w1)
     \/ (exists u, finish_or_issue s' a (turning_step (traj w1)) w1
                   = holonomic_delete_event u
           /\ ((exists k, u = with_keyframe k w1)
               \/ u = with_traj (set_moving_state MOVING_IDLE) w1
               \/ u = with_traj (set_turning_state TURNING_IDLE) w1))
     \/ (exists k, moving_state (traj w1) = MOVING_CIRCLE
           /\ finish_or_issue s' a (turning_step (traj w1)) w1 = with_keyframe k w1)).
  { intros s' Hs'. unfold finish_or_issue.
    destruct (is_MOVING_IDLE (moving_state (traj w1))
              && holonomic_robot_in_angle_window (traj w1) (a_win (traj w1))).
    - right. left. eexists. split; [reflexivity | auto].
    - left. exists s', a, (turning_step (traj w1)). auto. }
  destruct (is_TURNING_IDLE (turning_state (traj w1))
            && holonomic_robot_in_xy_window (traj w1) (d_win (traj w1)));
    [| apply Hf; exact Hs].
  destruct (moving_state (traj w1)) eqn:Em; cbn [is_MOVING_CIRCLE].
  - destruct (prev_speed w1 <? 20)%Z; [| apply Hf; lia].
    right. left. eexists. split; [reflexivity | auto].
  - match goal with |- context [if ?c then _ else _] => destruct c end.
    + right. left. eexists. split; [reflexivity |]. left. eexists. reflexivity.
    + right. right. eexists. split; reflexivity.
  - destruct (prev_speed w1 <? 20)%Z; [| apply Hf; lia].
    right. left. eexists. split; [reflexivity | auto].
Qed.

Lemma delete_event_calls_exact (w : world) :
  calls (holonomic_delete_event w)
  = calls w
    ++ [rsh_set_speed 20;
        rsh_set_direction_int (pos_theta_v_int (position (traj w)));
        rsh_set_rotation_speed 0; rsh_set_speed 0]
    ++ (if (scheduler_task (traj w) =? -1)%Z then []
        else [DEBUG "Delete event"; scheduler_del_event (scheduler_task (traj w))]).
Proof.
  unfold holonomic_delete_event, set_consigns_to_rsh, holonomic_do_ramp; simpl.
  destruct (scheduler_task (traj w) =? -1)%Z; simpl;
    rewrite <- !app_assoc; reflexivity.
Qed.

(** ** The speed handed to the drive layer *)

Lemma speed_in_bounds_set_consigns (s a o : Z) (u : world) :
  speed_in_bounds u -> (0 <= s <= 500)%Z ->
  speed_in_bounds (set_consigns_to_rsh s a o u).
Proof.
  intros [[k [Hk Hr]] Hc] Hs.
  assert (Hrange : (C.INT32_MIN + 20 <= prev_speed u <= C.INT32_MAX - 20)%Z)
    by (unfold C.INT32_MIN, C.INT32_MAX; lia).
  destruct (do_ramp_value s u Hrange) as [Hv _].
  assert (Hp : prev_speed (set_consigns_to_rsh s a o u) = fst (holonomic_do_ramp s u))
    by reflexivity.
  assert (Hnew : exists k', fst (holonomic_do_ramp s u) = (20 * k')%Z /\ (0 <= k' <= 26)%Z).
  { rewrite Hv. destruct (Z.geb_spec s (prev_speed u)).
    - exists (k + 1)%Z. lia.
    - exists (k - 1)%Z. lia. }
  split.
  - rewrite Hp. exact Hnew.
  - intros v Hin. rewrite set_consigns_calls in Hin.
    set (v0 := fst (holonomic_do_ramp s u)) in *. clearbody v0.
    apply in_app_or in Hin. destruct Hin as [Hin | Hin]; [now apply Hc |].
    simpl in Hin. destruct Hin as [Hin | [Hin | [Hin | []]]]; try discriminate.
    injection Hin as Hin. destruct Hnew as (k' & Hk1 & Hk2). lia.
Qed.

Lemma speed_in_bounds_delete_event (u : world) :
  (forall v : Z, In (rsh_set_speed v) (calls u) -> (0 <= v <= 520)%Z) ->
  speed_in_bounds (holonomic_delete_event u).
Proof.
  intros Hc. split.
  - exists 1%Z. rewrite delete_event_prev_speed. lia.
  - intros v Hin. rewrite delete_event_calls_exact in Hin.
    apply in_app_or in Hin. destruct Hin as [Hin | Hin]; [now apply Hc |].
    apply in_app_or in Hin. destruct Hin as [Hin | Hin].
    + simpl in Hin.
      destruct Hin as [Hin | [Hin | [Hin | [Hin | []]]]]; try discriminate;
        injection Hin as <-; lia.
    + destruct (scheduler_task (traj u) =? -1)%Z; simpl in Hin.
      * destruct Hin.
      * destruct Hin as [Hin | [Hin | []]]; discriminate.
Qed.

Lemma speed_in_bounds_regulator (w : world) :
  speed_in_bounds w -> speed_in_bounds (holonomic_trajectory_manager_event w).
Proof.
  intros Hw.
  assert (H1 : speed_in_bounds (fst (fst (moving_step w)))).
  { destruct (moving_step_cases w) as [[_ ->] | [_ [k ->]]]; exact Hw. }
  destruct (regulator_cases w) as [(s & a & o & Hs & ->) | [(u & -> & Hu) | (k & _ & ->)]].
  - now apply speed_in_bounds_set_consigns.
  - apply speed_in_bounds_delete_event.
    destruct Hu as [[k ->] | [-> | ->]]; exact (proj2 H1).
  - exact H1.
Qed.

(** X9: From rest, and along any run of ticks whatever the poses and the modes,
    the stored speed stays a multiple of 20 between 0 and 520, and so does
    every speed the regulator hands to the drive layer: it is never
    negative, it may pass the cruise speed 500 by one step, and the [int]
    that stores it cannot overflow. *)
Theorem issued_speed_stays_in_bounds
    (ps : list holonomic_robot_position) (w : world) :
  speed_in_bounds w -> speed_in_bounds (run_ticks ps w).
Proof.
  revert w. induction ps as [| p ps IH]; intros w Hw; simpl.
  - exact Hw.
  - apply IH. unfold tick. apply speed_in_bounds_regulator. exact Hw.
Qed.

Lemma issued_speed_stays_in_bounds_from_rest :
  speed_in_bounds
    (run_ticks [mk_position 900 0 0 0 0; mk_position 950 0 0 0 0]
       (mk_world
          (mk_traj MOVING_STRAIGHT TURNING_IDLE (vect2.mk 1000 0) 0 (vect2.mk 0 0)
             0 0 (vect2.mk 0 0) 50 0 0 (mk_position 0 0 0 0 0) 3)
          prev_speed_init keyframe_init [3%Z] [])).
Proof.
  apply issued_speed_stays_in_bounds.
  split.
  - exists 0%Z. split; [reflexivity | lia].
  - simpl. intros v [].
Defined.

(** ** What a tick leaves alone *)

Lemma delete_event_goal (u : world) :
  same_goal (traj u) (traj (holonomic_delete_event u))
  /\ position (traj (holonomic_delete_event u)) = position (traj u)
  /\ incl (tasks (holonomic_delete_event u)) (tasks u).
Proof.
  unfold holonomic_delete_event, set_consigns_to_rsh, holonomic_do_ramp, same_goal;
    simpl.
  destruct (scheduler_task (traj u) =? -1)%Z; simpl; repeat split;
    try apply incl_refl.
  unfold scheduler_deregister. intros x Hx. apply filter_In in Hx. tauto.
Qed.

Lemma delete_event_never_arms (u : world) :
  exists new, calls (holonomic_delete_event u) = calls u ++ new
    /\ forall p, ~ In (scheduler_add_periodical_event_priority p) new.
Proof.
  eexists. split; [apply delete_event_calls_exact |].
  intros p Hin. apply in_app_or in Hin. destruct Hin as [Hin | Hin].
  - simpl in Hin.
    repeat (destruct Hin as [Hin | Hin]; [discriminate |]). exact Hin.
  - destruct (scheduler_task (traj u) =? -1)%Z; simpl in Hin.
    + exact Hin.
    + repeat (destruct Hin as [Hin | Hin]; [discriminate |]). exact Hin.
Qed.

Lemma regulator_frame (w : world) :
  let w' := holonomic_trajectory_manager_event w in
  same_goal (traj w) (traj w')
  /\ position (traj w') = position (traj w)
  /\ (end_of_traj (traj w) = 1%Z -> end_of_traj (traj w') = 1%Z)
  /\ (moving_state (traj w) <> MOVING_CIRCLE ->
      moving_state (traj w') <> MOVING_CIRCLE /\ xy_target (traj w') = xy_target (traj w))
  /\ (exists new, calls w' = calls w ++ new
        /\ forall p, ~ In (scheduler_add_periodical_event_priority p) new)
  /\ incl (tasks w') (tasks w).
Proof.
  intros w'. subst w'.
  assert (H1 : exists w1, w1 = fst (fst (moving_step w))
     /\ same_goal (traj w) (traj w1)
     /\ position (traj w1) = position (traj w)
     /\ end_of_traj (traj w1) = end_of_traj (traj w)
     /\ (moving_state (traj w) <> MOVING_CIRCLE -> w1 = w)
     /\ moving_state (traj w1) = moving_state (traj w)
     /\ calls w1 = calls w /\ tasks w1 = tasks w).
  { eexists. split; [reflexivity |].
    destruct (moving_step_cases w) as [[Hn ->] | [Hc [k ->]]];
      unfold same_goal; simpl; repeat split; auto.
    intros Hn. contradiction. }
  destruct H1 as (w1 & Hw1 & Hg & Hpos & He & Hnc & Hms & Hc & Ht).
  assert (Hdel : forall u,
     ((exists k, u = with_keyframe k w1)
      \/ u = with_traj (set_moving_state MOVING_IDLE) w1
      \/ u = with_traj (set_turning_state TURNING_IDLE) w1) ->
     same_goal (traj w1) (traj (holonomic_delete_event u))
     /\ position (traj (holonomic_delete_event u)) = position (traj w1)
     /\ end_of_traj (traj (holonomic_delete_event u)) = 1%Z
     /\ moving_state (traj (holonomic_delete_event u)) = moving_state (traj u)
     /\ xy_target (traj (holonomic_delete_event u)) = xy_target (traj w1)
     /\ (exists new, calls (holonomic_delete_event u) = calls w1 ++ new
           /\ forall p, ~ In (scheduler_add_periodical_event_priority p) new)
     /\ incl (tasks (holonomic_delete_event u)) (tasks w1)).
  { intros u Hu.
    assert (Hcu : calls u = calls w1 /\ tasks u = tasks w1
                  /\ same_goal (traj w1) (traj u)
                  /\ position (traj u) = position (traj w1)
                  /\ xy_target (traj u) = xy_target (traj w1)).
    { destruct Hu as [[k ->] | [-> | ->]]; unfold same_goal; simpl; repeat split. }
    destruct Hcu as (Hcu & Htu & Hgu & Hpu & Hxu).
    destruct (delete_event_frame u) as (_ & Hdm & _ & Hdx & _ & _ & Hde).
    destruct (delete_event_goal u) as (Hdg & Hdp & Hdt).
    destruct (delete_event_never_arms u) as (new & Hdc & Hdn).
    split; [unfold same_goal in *; intuition congruence |].
    split; [congruence |]. split; [exact Hde |]. split; [exact Hdm |].
    split; [congruence |].
    split; [exists new; rewrite <- Hcu; auto | rewrite <- Htu; exact Hdt]. }
  pose proof (regulator_cases w) as Hcases. cbv zeta in Hcases.
  rewrite <- Hw1 in Hcases.
  destruct Hcases as [(s & a & o & Hs & Hev) | [(u & Hev & Hu) | (k & Hk & Hev)]];
    rewrite Hev.
  - destruct (set_consigns_frame s a o w1) as [Htr _]. rewrite Htr.
    split; [exact Hg |]. split; [exact Hpos |]. split; [congruence |].
    split; [intros Hn; rewrite (Hnc Hn); auto |].
    split.
    + eexists. rewrite set_consigns_calls, Hc. split; [reflexivity |].
      intros p Hin. simpl in Hin.
      repeat (destruct Hin as [Hin | Hin]; [discriminate |]); exact Hin.
    + unfold set_consigns_to_rsh, holonomic_do_ramp. simpl. rewrite Ht.
      apply incl_refl.
  - destruct (Hdel u Hu) as (Hg' & Hp' & He' & Hm' & Hx' & Hc' & Ht').
    split.
    { unfold same_goal in *. intuition congruence. }
    split; [congruence |]. split; [auto |].
    split.
    { intros Hn. specialize (Hnc Hn). rewrite Hm', Hx', Hnc.
      split; [| reflexivity]. rewrite Hnc in Hu.
      destruct Hu as [[k ->] | [-> | ->]]; simpl; auto; discriminate. }
    split; [rewrite <- Hc; exact Hc' | rewrite <- Ht; exact Ht'].
  - simpl. split; [exact Hg |]. split; [exact Hpos |]. split; [congruence |].
    split; [intros Hn; rewrite <- Hms in Hn; contradiction |].
    split; [exists []; rewrite app_nil_r; split; [exact Hc | intros p []] |].
    rewrite Ht. apply incl_refl.
Qed.

(** X10: Whatever the poses, the modes and the number of ticks, the regulator
    only reads the goal of the trajectory (target heading, circle, point to
    face, windows); it never clears [end_of_traj] once set; outside CIRCLE
    mode it never enters CIRCLE mode nor moves [xy_target]; it never
    registers a task with the scheduler, and the scheduler's registrations
    can only shrink. *)
Theorem ticks_only_read_the_goal
    (ps : list holonomic_robot_position) (w : world) :
  let w' := run_ticks ps w in
  same_goal (traj w) (traj w')
  /\ (end_of_traj (traj w) = 1%Z -> end_of_traj (traj w') = 1%Z)
  /\ (moving_state (traj w) <> MOVING_CIRCLE ->
      moving_state (traj w') <> MOVING_CIRCLE /\ xy_target (traj w') = xy_target (traj w))
  /\ (exists new, calls w' = calls w ++ new
        /\ forall p, ~ In (scheduler_add_periodical_event_priority p) new)
  /\ incl (tasks w') (tasks w).
Proof.
  revert w. induction ps as [| p ps IH]; intros w; cbn [run_ticks fold_left].
  - unfold same_goal. repeat split; auto.
    + exists []. rewrite app_nil_r. split; [reflexivity | intros p []].
    + apply incl_refl.
  - fold (run_ticks ps (tick p w)).
    destruct (IH (tick p w)) as (Hg & He & Hm & (new2 & Hc & Hn) & Ht).
    unfold tick in *.
    set (w0 := with_traj (set_position p) w) in *.
    destruct (regulator_frame w0) as (Hg0 & _ & He0 & Hm0 & (new1 & Hc0 & Hn0) & Ht0).
    set (w1 := holonomic_trajectory_manager_event w0) in *.
    split.
    { unfold same_goal in *. simpl in Hg0. intuition congruence. }
    split; [intros H; apply He, He0; exact H |].
    split.
    { intros H. destruct (Hm0 H) as [Ha Hb]. destruct (Hm Ha) as [Hc1 Hd].
      split; [exact Hc1 | rewrite Hd, Hb; reflexivity]. }
    split.
    { exists (new1 ++ new2). rewrite Hc, Hc0, app_assoc. split; [reflexivity |].
      intros q Hin. apply in_app_or in Hin. destruct Hin; [eapply Hn0 | eapply Hn]; eauto. }
    eapply incl_tran; [exact Ht | exact Ht0].
Qed.

(** X11: Along any run of ticks the scheduler and [scheduler_task] stay in step:
    [scheduler_task] is -1 exactly when the scheduler holds no registration
    for the trajectory. *)
Theorem ticks_keep_the_scheduler_in_step
    (ps : list holonomic_robot_position) (w : world) :
  task_consistent w ->
  task_consistent (run_ticks ps w)
  /\ (scheduler_task (traj (run_ticks ps w)) = (-1)%Z <-> ~ armed (run_ticks ps w)).
Proof.
  intros Hc.
  assert (H : task_consistent (run_ticks ps w)).
  { revert w Hc. induction ps as [| p ps IH]; intros w Hc; simpl.
    - exact Hc.
    - apply IH. unfold tick. apply regulator_consistent. exact Hc. }
  split; [exact H | now apply task_consistent_armed].
Qed.

Lemma ticks_keep_the_scheduler_in_step_at_the_arc_end :
  task_consistent (run_ticks [mk_position 0 (-100) 0 0 0] quarter_arc_end)
  /\ (scheduler_task (traj (run_ticks [mk_position 0 (-100) 0 0 0] quarter_arc_end))
      = (-1)%Z
      <-> ~ armed (run_ticks [mk_position 0 (-100) 0 0 0] quarter_arc_end)).
Proof.
  apply (ticks_keep_the_scheduler_in_step [mk_position 0 (-100) 0 0 0] quarter_arc_end).
  reflexivity.
Defined.

(** ** Arming, disarming and finishing, composed *)

(** X12: Arming a disarmed trajectory and disarming it again leaves the scheduler
    as it was, empty, and a trajectory that has been disarmed can be armed
    again: the handle the scheduler answers becomes [scheduler_task] and the
    only registration held. *)
Theorem arm_then_disarm_then_arm (h h' : Z) (w : world) :
  task_consistent w ->
  scheduler_task (traj w) = (-1)%Z ->
  h' <> (-1)%Z ->
  let wd := holonomic_delete_event (holonomic_schedule_event h w) in
  let wa := holonomic_schedule_event h' wd in
  tasks wd = tasks w
  /\ scheduler_task (traj wd) = (-1)%Z
  /\ scheduler_task (traj wa) = h'
  /\ tasks wa = [h']
  /\ end_of_traj (traj wa) = 1%Z.
Proof.
  intros Hc Hs Hh wd wa.
  pose proof (schedule_event_consistent h w Hc) as Hca.
  destruct (delete_event_disarms _ Hca) as [Ht Hd]. fold wd in Ht, Hd.
  assert (Hw : tasks w = []).
  { unfold task_consistent in Hc. rewrite Hs in Hc. exact Hc. }
  destruct (delete_event_frame (holonomic_schedule_event h w))
    as (_ & _ & _ & _ & _ & _ & He). fold wd in He.
  subst wa. unfold holonomic_schedule_event at 1 2 3.
  rewrite Hd. simpl. rewrite Ht, Hw.
  unfold scheduler_register.
  destruct (Z.eqb_spec h' (-1)) as [E | E]; [contradiction |].
  repeat split; auto.
Qed.

Lemma arm_then_disarm_then_arm_from_start :
  let w := mk_world
             (mk_traj MOVING_IDLE TURNING_IDLE (vect2.mk 0 0) 0 (vect2.mk 0 0)
                0 0 (vect2.mk 0 0) 50 0 0 (mk_position 0 0 0 0 0) (-1))
             prev_speed_init keyframe_init [] [] in
  let wd := holonomic_delete_event (holonomic_schedule_event 2 w) in
  let wa := holonomic_schedule_event 5 wd in
  tasks wd = tasks w
  /\ scheduler_task (traj wd) = (-1)%Z
  /\ scheduler_task (traj wa) = 5%Z
  /\ tasks wa = [5%Z]
  /\ end_of_traj (traj wa) = 1%Z.
Proof.
  intros w.
  apply (arm_then_disarm_then_arm 2 5 w); [reflexivity | reflexivity | discriminate].
Defined.

Lemma delete_event_when_disarmed (u : world) :
  scheduler_task (traj u) = (-1)%Z ->
  holonomic_delete_event u
  = mk_world (set_end_of_traj 1 (traj u)) 20 (keyframe u) (tasks u)
      (calls u ++ [rsh_set_speed 20;
                   rsh_set_direction_int (pos_theta_v_int (position (traj u)));
                   rsh_set_rotation_speed 0; rsh_set_speed 0]).
Proof.
  intros Hs.
  unfold holonomic_delete_event, set_consigns_to_rsh, holonomic_do_ramp.
  simpl. rewrite Hs. simpl.
  unfold emit, with_prev_speed, with_traj. simpl.
  rewrite <- !app_assoc. reflexivity.
Qed.

Lemma set_end_of_traj_same (t : h_trajectory) :
  end_of_traj t = 1%Z -> set_end_of_traj 1 t = t.
Proof. destruct t; simpl; intros ->; reflexivity. Qed.

(** X13: [holonomic_delete_event] is idempotent on the state: a second call
    leaves the trajectory, the stored speed, the keyframe and the scheduler
    as the first one left them, and only repeats the four stop calls to the
    drive layer, without any call to the scheduler. *)
Theorem delete_event_twice (w : world) :
  let w1 := holonomic_delete_event w in
  let w2 := holonomic_delete_event w1 in
  traj w2 = traj w1
  /\ prev_speed w2 = prev_speed w1
  /\ keyframe w2 = keyframe w1
  /\ tasks w2 = tasks w1
  /\ calls w2
     = calls w1 ++ [rsh_set_speed 20;
                    rsh_set_direction_int (pos_theta_v_int (position (traj w)));
                    rsh_set_rotation_speed 0; rsh_set_speed 0].
Proof.
  intros w1 w2.
  assert (Hs : scheduler_task (traj w1) = (-1)%Z).
  { subst w1. unfold holonomic_delete_event, set_consigns_to_rsh, holonomic_do_ramp.
    simpl. destruct (Z.eqb_spec (scheduler_task (traj w)) (-1)); simpl; auto. }
  assert (He : end_of_traj (traj w1) = 1%Z)
    by (apply (delete_event_frame w)).
  assert (Hp : position (traj w1) = position (traj w))
    by (apply (delete_event_goal w)).
  assert (Hv : prev_speed w1 = 20%Z) by apply delete_event_prev_speed.
  subst w2. rewrite (delete_event_when_disarmed w1 Hs).
  cbn [traj prev_speed keyframe tasks calls].
  rewrite (set_end_of_traj_same _ He), Hv, Hp. repeat split.
Qed.


Lemma gtb_true (a b : R) : C.gtb a b = true -> b < a.
Proof. unfold C.gtb. apply ltb_true_iff. Qed.

Lemma gtb_false (a b : R) : C.gtb a b = false -> a <= b.
Proof. unfold C.gtb. apply ltb_false_iff. Qed.

(** ** Ticks of a turning axis at work *)

Lemma turning_tick_issues (w : world) :
  turning_state (traj w) <> TURNING_IDLE ->
  ~ (moving_state (traj w) = MOVING_IDLE
     /\ holonomic_robot_in_angle_window (traj w) (a_win (traj w)) = true) ->
  holonomic_trajectory_manager_event w
  = set_consigns_to_rsh (snd (fst (moving_step w))) (snd (moving_step w))
      (turning_step (traj w)) (fst (fst (moving_step w))).
Proof.
  intros Ht Hfin. unfold holonomic_trajectory_manager_event.
  pose proof (moving_step_frame w) as Hf.
  destruct (moving_step w) as [[w1 s] a]. simpl in Hf. cbn [fst snd].
  destruct Hf as (Hm & Hts & Hat & Haw & Hp & _ & _ & _ & _).
  assert (Hg : is_TURNING_IDLE (turning_state (traj w1)) = false).
  { rewrite Hts. destruct (turning_state (traj w)); try reflexivity.
    now contradiction Ht. }
  rewrite Hg. cbn [andb]. unfold finish_or_issue.
  assert (Hw : holonomic_robot_in_angle_window (traj w1) (a_win (traj w1))
               = holonomic_robot_in_angle_window (traj w) (a_win (traj w))).
  { unfold holonomic_robot_in_angle_window. now rewrite Hat, Hp, Haw. }
  rewrite Hm, Hw.
  destruct (is_MOVING_IDLE (moving_state (traj w))
            && holonomic_robot_in_angle_window (traj w) (a_win (traj w))) eqn:E.
  - exfalso. apply andb_true_iff in E. destruct E as [E1 E2].
    apply Hfin. split; [| exact E2].
    destruct (moving_state (traj w)); simpl in E1; congruence.
  - unfold turning_step. rewrite Hts, Hat, Hp. reflexivity.
Qed.

(** X14: HOLD_HEADING is a bang-bang controller that never rests: on every tick
    that issues consigns the angular speed handed to the drive layer is 50
    or -50, never 0; it is -50 exactly when the heading error
    [a_target] - heading lies in [0, pi], so also when the heading is on
    the target. *)
Theorem cap_consign_is_never_zero (w : world) :
  turning_state (traj w) = TURNING_CAP ->
  ~ (moving_state (traj w) = MOVING_IDLE
     /\ holonomic_robot_in_angle_window (traj w) (a_win (traj w)) = true) ->
  let d_a := a_target (traj w) - pos_a_rad (position (traj w)) in
  exists v a o : Z,
    calls (holonomic_trajectory_manager_event w)
    = calls w ++ [rsh_set_speed v; rsh_set_direction_int a; rsh_set_rotation_speed o]
    /\ (o = 50%Z \/ o = (-50)%Z)
    /\ (o = (-50)%Z <-> 0 <= d_a <= PI).
Proof.
  intros Ht Hfin d_a.
  assert (Hn : turning_state (traj w) <> TURNING_IDLE) by (rewrite Ht; discriminate).
  rewrite (turning_tick_issues w Hn Hfin), set_consigns_calls.
  destruct (moving_step_frame w) as (_ & _ & _ & _ & _ & _ & _ & _ & Hc).
  rewrite Hc.
  do 3 eexists. split; [reflexivity |].
  unfold turning_step. rewrite Ht. fold d_a. unfold C.M_PI.
  destruct (C.ltb d_a 0) eqn:E1; destruct (C.gtb d_a PI) eqn:E2; cbn [orb];
    [apply ltb_true_iff in E1 | apply ltb_true_iff in E1
    | apply ltb_false_iff in E1 | apply ltb_false_iff in E1];
    [apply gtb_true in E2 | apply gtb_false in E2
    | apply gtb_true in E2 | apply gtb_false in E2];
    (split; [auto |]); split; intros; try discriminate; try lra; auto.
Qed.

Lemma cap_consign_is_never_zero_on_target :
  let w := mk_world
             (mk_traj MOVING_STRAIGHT TURNING_CAP (vect2.mk 1000 0) 1 (vect2.mk 0 0)
                0 0 (vect2.mk 0 0) 50 (3 / 10) 0 (mk_position 0 0 1 0 0) 3)
             0 keyframe_init [3%Z] [] in
  let d_a := a_target (traj w) - pos_a_rad (position (traj w)) in
  exists v a o : Z,
    calls (holonomic_trajectory_manager_event w)
    = calls w ++ [rsh_set_speed v; rsh_set_direction_int a; rsh_set_rotation_speed o]
    /\ (o = 50%Z \/ o = (-50)%Z)
    /\ (o = (-50)%Z <-> 0 <= d_a <= PI).
Proof.
  intros w.
  apply (cap_consign_is_never_zero w).
  - reflexivity.
  - intros [H _]. discriminate H.
Defined.

Lemma turning_in_place_tick (p : holonomic_robot_position) (w : world) :
  moving_state (traj w) = MOVING_IDLE ->
  turning_state (traj w) <> TURNING_IDLE ->
  out_of_angle_window (traj w) p ->
  (prev_speed w = 0 \/ prev_speed w = 20)%Z ->
  let w' := tick p w in
  prev_speed w' = (20 - prev_speed w)%Z
  /\ traj w' = set_position p (traj w)
  /\ tasks w' = tasks w
  /\ exists o, calls w' = calls w ++ [rsh_set_speed (20 - prev_speed w);
                                      rsh_set_direction_int 0;
                                      rsh_set_rotation_speed o].
Proof.
  intros Hm Ht Hout Hp w'. subst w'. unfold tick.
  set (w0 := with_traj (set_position p) w).
  assert (Hfin : ~ (moving_state (traj w0) = MOVING_IDLE
                    /\ holonomic_robot_in_angle_window (traj w0) (a_win (traj w0)) = true)).
  { intros [_ H]. unfold out_of_angle_window in Hout.
    change (holonomic_robot_in_angle_window (traj w0) (a_win (traj w0)))
      with (holonomic_robot_in_angle_window (set_position p (traj w)) (a_win (traj w))) in H.
    congruence. }
  rewrite (turning_tick_issues w0 Ht Hfin).
  assert (Hstep : moving_step w0 = (w0, 0%Z, 0%Z)).
  { unfold moving_step. change (moving_state (traj w0)) with (moving_state (traj w)).
    rewrite Hm. reflexivity. }
  rewrite Hstep. cbn [fst snd].
  assert (Hv : fst (holonomic_do_ramp 0 w0) = (20 - prev_speed w)%Z).
  { unfold holonomic_do_ramp. cbn [fst]. change (prev_speed w0) with (prev_speed w).
    destruct Hp as [-> | ->]; reflexivity. }
  split; [exact Hv |].
  split; [apply set_consigns_frame |].
  split; [reflexivity |].
  eexists. rewrite set_consigns_calls, Hv. reflexivity.
Qed.

(** X15: Turning in place (moving axis idle, turning axis at work, heading
    outside the angle window): the speed consign is 0 but the ramp cannot
    hold it, so from rest the speed handed to the drive layer alternates
    20, 0, 20, ... tick after tick, and the trajectory is not finished. *)
Theorem turning_in_place_speed_alternates
    (ps : list holonomic_robot_position) (w : world) :
  moving_state (traj w) = MOVING_IDLE ->
  turning_state (traj w) <> TURNING_IDLE ->
  Forall (out_of_angle_window (traj w)) ps ->
  (prev_speed w = 0 \/ prev_speed w = 20)%Z ->
  let w' := run_ticks ps w in
  prev_speed w' = (if Nat.even (List.length ps) then prev_speed w else 20 - prev_speed w)%Z
  /\ end_of_traj (traj w') = end_of_traj (traj w)
  /\ turning_state (traj w') = turning_state (traj w)
  /\ tasks w' = tasks w.
Proof.
  revert w. induction ps as [| p ps IH]; intros w Hm Ht Hout Hp.
  - simpl. auto.
  - cbn [run_ticks fold_left]. fold (run_ticks ps (tick p w)).
    inversion Hout as [| p' ps' Hp1 Hps]; subst.
    destruct (turning_in_place_tick p w Hm Ht Hp1 Hp) as (Hv & Htr & Hta & _).
    assert (Hm1 : moving_state (traj (tick p w)) = MOVING_IDLE)
      by (rewrite Htr; exact Hm).
    assert (Ht1 : turning_state (traj (tick p w)) <> TURNING_IDLE)
      by (rewrite Htr; exact Ht).
    assert (Hout1 : Forall (out_of_angle_window (traj (tick p w))) ps)
      by (rewrite Htr; exact Hps).
    assert (Hp1' : (prev_speed (tick p w) = 0 \/ prev_speed (tick p w) = 20)%Z)
      by (rewrite Hv; lia).
    destruct (IH (tick p w) Hm1 Ht1 Hout1 Hp1') as (Hv2 & He2 & Ht2 & Hta2).
    rewrite Hv2, He2, Ht2, Hta2, Htr, Hv, Hta.
    cbn [List.length]. rewrite Nat.even_succ, <- Nat.negb_even.
    destruct (Nat.even (List.length ps)); cbn [negb]; repeat split; lia.
Qed.

Lemma turning_in_place_speed_alternates_three_ticks :
  let w := mk_world
             (mk_traj MOVING_IDLE TURNING_CAP (vect2.mk 0 0) 1 (vect2.mk 0 0)
                0 0 (vect2.mk 0 0) 50 (2 / 10) 0 (mk_position 0 0 0 0 0) 3)
             0 keyframe_init [3%Z] [] in
  let ps := [mk_position 0 0 0 0 0; mk_position 0 0 0 0 0; mk_position 0 0 0 0 0] in
  let w' := run_ticks ps w in
  prev_speed w' = (if Nat.even (List.length ps) then prev_speed w else 20 - prev_speed w)%Z
  /\ end_of_traj (traj w') = end_of_traj (traj w)
  /\ turning_state (traj w') = turning_state (traj w)
  /\ tasks w' = tasks w.
Proof.
  intros w ps.
  assert (Hout : out_of_angle_window (traj w) (mk_position 0 0 0 0 0)).
  { unfold out_of_angle_window, holonomic_robot_in_angle_window. simpl.
    rewrite ABS_Rabs. replace (1 - 0) with 1 by lra.
    rewrite Rabs_pos_eq by lra. unfold C.M_PI. pose proof PI_gt_3.
    replace (C.ltb 1 PI) with true by (symmetry; apply ltb_true_iff; lra).
    apply ltb_false_iff. lra. }
  apply (turning_in_place_speed_alternates ps w).
  - reflexivity.
  - discriminate.
  - repeat constructor; exact Hout.
  - left; reflexivity.
Defined.

(** ** Arriving on a straight line *)

Lemma straight_arrival_tick (p : holonomic_robot_position) (w : world) :
  moving_state (traj w) = MOVING_STRAIGHT ->
  turning_state (traj w) = TURNING_IDLE ->
  in_xy_window_at (traj w) p ->
  let w' := tick p w in
  ((20 <= prev_speed w <= C.INT32_MAX - 20)%Z ->
   prev_speed w' = (prev_speed w - 20)%Z
   /\ traj w' = set_position p (traj w)
   /\ tasks w' = tasks w)
  /\ ((prev_speed w < 20)%Z ->
      w' = holonomic_delete_event
             (with_traj (set_moving_state MOVING_IDLE) (with_traj (set_position p) w))).
Proof.
  intros Hm Ht Hin w'. subst w'. unfold tick.
  set (w0 := with_traj (set_position p) w).
  assert (Hstep : exists s a, moving_step w0 = (w0, s, a)).
  { unfold moving_step. change (moving_state (traj w0)) with (moving_state (traj w)).
    rewrite Hm. eauto. }
  destruct Hstep as (s & a & Hstep).
  unfold holonomic_trajectory_manager_event. rewrite Hstep.
  change (turning_state (traj w0)) with (turning_state (traj w)).
  change (moving_state (traj w0)) with (moving_state (traj w)).
  change (holonomic_robot_in_xy_window (traj w0) (d_win (traj w0)))
    with (holonomic_robot_in_xy_window (set_position p (traj w)) (d_win (traj w))).
  unfold in_xy_window_at in Hin. rewrite Ht, Hm, Hin.
  cbn [is_TURNING_IDLE is_MOVING_CIRCLE andb].
  change (prev_speed w0) with (prev_speed w).
  split.
  - intros Hp. destruct (Z.ltb_spec (prev_speed w) 20); [lia |].
    unfold finish_or_issue. change (moving_state (traj w0)) with (moving_state (traj w)).
    rewrite Hm. cbn [is_MOVING_IDLE andb].
    assert (Hr : (C.INT32_MIN + 20 <= prev_speed w0 <= C.INT32_MAX - 20)%Z)
      by (change (prev_speed w0) with (prev_speed w);
          unfold C.INT32_MIN, C.INT32_MAX in *; lia).
    destruct (do_ramp_value 0 w0 Hr) as [Hv _].
    change (prev_speed w0) with (prev_speed w) in Hv.
    destruct (Z.geb_spec 0 (prev_speed w)); [lia |].
    split; [exact Hv |]. split; [apply set_consigns_frame | reflexivity].
  - intros Hp. destruct (Z.ltb_spec (prev_speed w) 20); [reflexivity | lia].
Qed.

(** X16: The stop on a straight line: once the robot is inside the distance
    window with the turning axis idle, every tick lowers the stored speed by
    20 without finishing, as long as the stored speed is 20 or more; the
    first tick that finds it below 20 finishes the trajectory (moving axis
    idle, [end_of_traj] set, task deregistered) and leaves the stored speed
    at 20, not at 0. *)
Theorem straight_arrival_stops_in_steps
    (ps : list holonomic_robot_position) (q : holonomic_robot_position)
    (r : Z) (w : world) :
  moving_state (traj w) = MOVING_STRAIGHT ->
  turning_state (traj w) = TURNING_IDLE ->
  Forall (in_xy_window_at (traj w)) (ps ++ [q]) ->
  (0 <= r < 20)%Z ->
  prev_speed w = (20 * Z.of_nat (List.length ps) + r)%Z ->
  (prev_speed w <= C.INT32_MAX - 20)%Z ->
  task_consistent w ->
  let wn := run_ticks ps w in
  let wf := tick q wn in
  (prev_speed wn = r
   /\ end_of_traj (traj wn) = end_of_traj (traj w)
   /\ moving_state (traj wn) = MOVING_STRAIGHT
   /\ tasks wn = tasks w)
  /\ (moving_state (traj wf) = MOVING_IDLE
      /\ end_of_traj (traj wf) = 1%Z
      /\ scheduler_task (traj wf) = (-1)%Z
      /\ tasks wf = []
      /\ prev_speed wf = 20%Z).
Proof.
  revert w. induction ps as [| p ps IH]; intros w Hm Ht Hin Hr Hp Hmax Hc wn wf.
  - subst wn wf. cbn [run_ticks fold_left].
    split; [cbn [List.length Z.of_nat] in Hp; repeat split; auto; lia |].
    apply Forall_inv in Hin.
    destruct (straight_arrival_tick q w Hm Ht Hin) as [_ Hfin].
    cbn [List.length Z.of_nat] in Hp.
    rewrite Hfin by lia.
    set (u := with_traj (set_moving_state MOVING_IDLE) (with_traj (set_position q) w)).
    assert (Hcu : task_consistent u) by exact Hc.
    destruct (delete_event_disarms u Hcu) as [Hta Hs].
    destruct (delete_event_frame u) as (_ & Hms & _ & _ & _ & _ & He).
    rewrite Hms, He, Hs, Hta, delete_event_prev_speed. repeat split.
  - subst wn wf. cbn [run_ticks fold_left]. fold (run_ticks ps (tick p w)).
    cbn [app] in Hin. inversion Hin as [| p' l' Hp1 Hrest]; subst.
    destruct (straight_arrival_tick p w Hm Ht Hp1) as [Hgo _].
    cbn [List.length] in Hp. rewrite Nat2Z.inj_succ in Hp.
    destruct Hgo as (Hv & Htr & Hta); [lia |].
    assert (Hc1 : task_consistent (tick p w)).
    { unfold tick. apply regulator_consistent. exact Hc. }
    assert (Hin1 : Forall (in_xy_window_at (traj (tick p w))) (ps ++ [q]))
      by (rewrite Htr; exact Hrest).
    destruct (IH (tick p w)) as [(H1 & H2 & H3 & H4) H5];
      try (rewrite Htr; assumption); try assumption; try lia.
    split; [| exact H5].
    rewrite H1, H2, H3, H4, Htr, Hta. repeat split.
Qed.

Lemma straight_arrival_stops_in_steps_from_40 :
  let w := mk_world
             (mk_traj MOVING_STRAIGHT TURNING_IDLE (vect2.mk 1000 0) 0 (vect2.mk 0 0)
                0 0 (vect2.mk 0 0) 50 0 0 (mk_position 0 0 0 0 0) 3)
             40 keyframe_init [3%Z] [] in
  let at_target := mk_position 1000 0 0 0 0 in
  let wn := run_ticks [at_target; at_target] w in
  let wf := tick at_target wn in
  (prev_speed wn = 0%Z
   /\ end_of_traj (traj wn) = end_of_traj (traj w)
   /\ moving_state (traj wn) = MOVING_STRAIGHT
   /\ tasks wn = tasks w)
  /\ (moving_state (traj wf) = MOVING_IDLE
      /\ end_of_traj (traj wf) = 1%Z
      /\ scheduler_task (traj wf) = (-1)%Z
      /\ tasks wf = []
      /\ prev_speed wf = 20%Z).
Proof.
  intros w at_target.
  assert (Hin : in_xy_window_at (traj w) at_target).
  { unfold in_xy_window_at, holonomic_robot_in_xy_window, vect2_dist_cart, C.pow2.
    simpl. apply ltb_true_iff.
    replace ((1000 - 1000) * (1000 - 1000) + (0 - 0) * (0 - 0)) with 0 by lra.
    rewrite sqrt_0. lra. }
  apply (straight_arrival_stops_in_steps [at_target; at_target] at_target 0 w).
  - reflexivity.
  - reflexivity.
  - repeat constructor; exact Hin.
  - lia.
  - reflexivity.
  - simpl. unfold C.INT32_MAX. lia.
  - reflexivity.
Defined.

(** ** The arc, near its keyframe *)

(** X17: In CIRCLE mode with the turning axis idle, a tick that finds the robot
    within [d_win] of the keyframe never issues the consign of the arc: when
    the arrival point it computes is within [d_win] it finishes, and
    otherwise it returns having made no call at all, the stored speed,
    [end_of_traj] and the scheduler untouched, and only the keyframe moved
    [ANGLE_INC] further, which the next tick will write into [xy_target]. *)
Theorem circle_tick_near_the_keyframe_is_silent (w : world) :
  moving_state (traj w) = MOVING_CIRCLE ->
  turning_state (traj w) = TURNING_IDLE ->
  let x := pos_x (position (traj w)) in
  let y := pos_y (position (traj w)) in
  let w1 := fst (fst (moving_step w)) in
  let w' := holonomic_trajectory_manager_event w in
  holonomic_robot_in_xy_window (traj w1) (d_win (traj w)) = true ->
  (vect2_dist_cart (circle_point (traj w) x y (arc_angle (traj w))) (vect2.mk x y)
   < d_win (traj w) ->
   w' = holonomic_delete_event (with_keyframe (circle_point (traj w) x y ANGLE_INC) w1))
  /\ (d_win (traj w)
      <= vect2_dist_cart (circle_point (traj w) x y (arc_angle (traj w))) (vect2.mk x y) ->
      calls w' = calls w
      /\ prev_speed w' = prev_speed w
      /\ tasks w' = tasks w
      /\ end_of_traj (traj w') = end_of_traj (traj w)
      /\ xy_target (traj w') = keyframe w1
      /\ keyframe w' = circle_point (traj w) x y ANGLE_INC).
Proof.
  intros Hm Ht x y w1 w' Hwin. split.
  - intros Hnear. subst w'. apply circle_arrival_finishes; assumption.
  - intros Hfar. subst w' w1. apply ltb_false_iff in Hfar.
    unfold holonomic_trajectory_manager_event.
    revert Hwin. unfold moving_step. rewrite Hm.
    destruct (C.ltb (vect2.x (keyframe w)) 0); cbn [fst traj with_traj with_keyframe];
      intros Hwin;
      cbn [turning_state moving_state d_win set_xy_target arc_angle position];
      rewrite Ht, Hm; cbn [is_TURNING_IDLE is_MOVING_CIRCLE andb];
      cbn [d_win set_xy_target] in Hwin; rewrite Hwin; fold x y;
      (match goal with
       | |- context [if C.ltb (vect2_dist_cart ?a ?b) ?c then _ else _] =>
           change (C.ltb (vect2_dist_cart a b) c)
             with (C.ltb (vect2_dist_cart
                            (circle_point (traj w) x y (arc_angle (traj w)))
                            (vect2.mk x y)) (d_win (traj w)))
       end);
      rewrite Hfar; repeat split.
Qed.

Lemma quarter_arc_end_gate :
  holonomic_robot_in_xy_window (traj (fst (fst (moving_step quarter_arc_end))))
    (d_win (traj quarter_arc_end)) = true
  /\ d_win (traj quarter_arc_end)
     <= vect2_dist_cart
          (circle_point (traj quarter_arc_end)
             (pos_x (position (traj quarter_arc_end)))
             (pos_y (position (traj quarter_arc_end)))
             (arc_angle (traj quarter_arc_end)))
          (vect2.mk (pos_x (position (traj quarter_arc_end)))
             (pos_y (position (traj quarter_arc_end)))).
Proof.
  split.
  - unfold moving_step.
    change (moving_state (traj quarter_arc_end)) with MOVING_CIRCLE. cbv iota.
    replace (C.ltb (vect2.x (keyframe quarter_arc_end)) 0) with false
      by (symmetry; apply ltb_false_iff; simpl; lra).
    cbn [fst].
    unfold holonomic_robot_in_xy_window, vect2_dist_cart, C.pow2. simpl.
    apply ltb_true_iff.
    replace ((0 - 0) * (0 - 0) + (-100 - -100) * (-100 - -100)) with 0 by lra.
    rewrite sqrt_0. lra.
  - destruct atan2f_on_the_axes as [_ Hnow].
    unfold circle_point, vect2_dist_cart, C.pow2. simpl. rewrite Hnow.
    replace (- (PI / 2) - PI / 2) with (- PI) by lra.
    rewrite cos_neg, sin_neg, cos_PI, sin_PI.
    replace ((0 + -1 * 100 - 0) * (0 + -1 * 100 - 0)
             + (0 + - 0 * 100 - -100) * (0 + - 0 * 100 - -100))
      with 20000 by lra.
    apply sqrt_20000_ge_10.
Qed.

Lemma circle_tick_near_the_keyframe_is_silent_at_the_arc_end :
  let w := quarter_arc_end in
  let x := pos_x (position (traj w)) in
  let y := pos_y (position (traj w)) in
  let w1 := fst (fst (moving_step w)) in
  let w' := holonomic_trajectory_manager_event w in
  (vect2_dist_cart (circle_point (traj w) x y (arc_angle (traj w))) (vect2.mk x y)
   < d_win (traj w) ->
   w' = holonomic_delete_event (with_keyframe (circle_point (traj w) x y ANGLE_INC) w1))
  /\ (d_win (traj w)
      <= vect2_dist_cart (circle_point (traj w) x y (arc_angle (traj w))) (vect2.mk x y) ->
      calls w' = calls w
      /\ prev_speed w' = prev_speed w
      /\ tasks w' = tasks w
      /\ end_of_traj (traj w') = end_of_traj (traj w)
      /\ xy_target (traj w') = keyframe w1
      /\ keyframe w' = circle_point (traj w) x y ANGLE_INC).
Proof.
  intros w.
  apply (circle_tick_near_the_keyframe_is_silent w).
  - reflexivity.
  - reflexivity.
  - apply quarter_arc_end_gate.
Defined.

Lemma circle_tick_writes_the_kept_keyframe_of_another_arc :
  xy_target
    (traj (holonomic_trajectory_manager_event
             (mk_world
                (mk_traj MOVING_CIRCLE TURNING_CAP (vect2.mk 0 0) 0 (vect2.mk 1000 1000)
                   (PI / 2) 10 (vect2.mk 0 0) 10 0 0 (mk_position 1010 1000 0 0 0) 3)
                0 (vect2.mk 50 0) [3%Z] [])))
  = vect2.mk 50 0.
Proof.
  apply (circle_tick_writes_the_kept_keyframe
           (mk_world
              (mk_traj MOVING_CIRCLE TURNING_CAP (vect2.mk 0 0) 0 (vect2.mk 1000 1000)
                 (PI / 2) 10 (vect2.mk 0 0) 10 0 0 (mk_position 1010 1000 0 0 0) 3)
              0 (vect2.mk 50 0) [3%Z] [])).
  - reflexivity.
  - simpl. lra.
Defined.

Lemma circle_arrival_distance_is_the_chord_at_the_start :
  let t := traj quarter_arc_end in
  C.pow2 (vect2_dist_cart (circle_point t 100 0 (arc_angle t)) (vect2.mk 100 0))
  = radius t * radius t * (2 - 2 * cos (arc_angle t)).
Proof.
  intros t.
  destruct atan2f_on_the_axes as [Hstart _].
  apply (circle_arrival_distance_is_the_chord t 100 0); simpl;
    rewrite Hstart; rewrite ?cos_0, ?sin_0; lra.
Defined.

(** ** The length of an arc *)

(** X20: The law of cosines as the helper applies it: for a radius [rad] > 0 and
    a target that lies at the chord of an angle [theta] of [0, pi] from the
    robot, that is at the distance 2 * rad * sin (theta / 2), the length
    returned is rad * theta, the arc of that angle; on the target it is 0. *)
Theorem length_arc_of_circle_is_radius_times_angle
    (t : h_trajectory) (rad theta : R) :
  0 < rad ->
  0 <= theta <= PI ->
  vect2_dist_cart (vect2.mk (pos_x (position t)) (pos_y (position t))) (xy_target t)
  = 2 * rad * sin (theta / 2) ->
  holonomic_length_arc_of_circle_pnt t rad = rad * theta
  /\ (theta = 0 -> holonomic_length_arc_of_circle_pnt t rad = 0).
Proof.
  intros Hr Ht Hd.
  assert (H : holonomic_length_arc_of_circle_pnt t rad = rad * theta).
  { unfold holonomic_length_arc_of_circle_pnt, fast_acosf. cbv zeta. rewrite Hd.
    replace (1 - 5 / 10 * (2 * rad * sin (theta / 2) / rad)
                 * (2 * rad * sin (theta / 2) / rad))
      with (1 - 2 * sin (theta / 2) * sin (theta / 2)) by (field; lra).
    rewrite <- cos_2a_sin.
    replace (2 * (theta / 2)) with theta by field.
    rewrite acos_cos by exact Ht. reflexivity. }
  split; [exact H |].
  intros ->. rewrite H. ring.
Qed.

Lemma length_arc_of_circle_half_turn :
  let t := traj (facing_example (vect2.mk 0 1)) in
  holonomic_length_arc_of_circle_pnt t 500 = 500 * PI
  /\ (PI = 0 -> holonomic_length_arc_of_circle_pnt t 500 = 0).
Proof.
  intros t.
  apply (length_arc_of_circle_is_radius_times_angle t 500 PI).
  - lra.
  - pose proof PI_RGT_0. lra.
  - unfold vect2_dist_cart, C.pow2. simpl.
    replace ((0 - 1000) * (0 - 1000) + (0 - 0) * (0 - 0)) with (1000 * 1000) by lra.
    rewrite sqrt_square by lra. rewrite sin_PI2. lra.
Defined.

(** ** How the two axes finish *)

Lemma both_axes_at_work_tick (p : holonomic_robot_position) (w : world) :
  moving_state (traj w) <> MOVING_IDLE ->
  turning_state (traj w) <> TURNING_IDLE ->
  let w' := tick p w in
  moving_state (traj w') = moving_state (traj w)
  /\ turning_state (traj w') = turning_state (traj w)
  /\ end_of_traj (traj w') = end_of_traj (traj w)
  /\ scheduler_task (traj w') = scheduler_task (traj w)
  /\ tasks w' = tasks w
  /\ exists v a o, calls w' = calls w ++ [rsh_set_speed v; rsh_set_direction_int a;
                                         rsh_set_rotation_speed o].
Proof.
  intros Hm Ht w'. subst w'. unfold tick.
  set (w0 := with_traj (set_position p) w).
  assert (Hfin : ~ (moving_state (traj w0) = MOVING_IDLE
                    /\ holonomic_robot_in_angle_window (traj w0) (a_win (traj w0)) = true))
    by (intros [H _]; exact (Hm H)).
  rewrite (turning_tick_issues w0 Ht Hfin).
  destruct (set_consigns_frame (snd (fst (moving_step w0))) (snd (moving_step w0))
              (turning_step (traj w0)) (fst (fst (moving_step w0)))) as [Htr _].
  rewrite Htr, set_consigns_calls.
  unfold set_consigns_to_rsh, holonomic_do_ramp. cbn [tasks emit with_prev_speed].
  destruct (moving_step_cases w0) as [[_ ->] | [_ [k ->]]]; simpl;
    repeat split; eauto.
Qed.

(** X21: While both axes are at work neither can finish: the moving axis is
    finished only by a tick that finds the turning axis idle, and the
    turning axis only by one that finds the moving axis idle. So with a
    moving and a turning goal together, whatever the poses and however many
    the ticks, both states stay as they are, [end_of_traj] is not set, the
    task stays registered and every tick issues its three consigns. *)
Theorem both_axes_at_work_never_finish
    (ps : list holonomic_robot_position) (w : world) :
  moving_state (traj w) <> MOVING_IDLE ->
  turning_state (traj w) <> TURNING_IDLE ->
  let w' := run_ticks ps w in
  moving_state (traj w') = moving_state (traj w)
  /\ turning_state (traj w') = turning_state (traj w)
  /\ end_of_traj (traj w') = end_of_traj (traj w)
  /\ scheduler_task (traj w') = scheduler_task (traj w)
  /\ tasks w' = tasks w
  /\ List.length (calls w') = (List.length (calls w) + 3 * List.length ps)%nat.
Proof.
  revert w. induction ps as [| p ps IH]; intros w Hm Ht.
  - simpl. repeat split. lia.
  - cbn [run_ticks fold_left]. fold (run_ticks ps (tick p w)).
    destruct (both_axes_at_work_tick p w Hm Ht)
      as (H1 & H2 & H3 & H4 & H5 & (v & a & o & H6)).
    assert (Hm1 : moving_state (traj (tick p w)) <> MOVING_IDLE) by (rewrite H1; exact Hm).
    assert (Ht1 : turning_state (traj (tick p w)) <> TURNING_IDLE) by (rewrite H2; exact Ht).
    destruct (IH (tick p w) Hm1 Ht1) as (G1 & G2 & G3 & G4 & G5 & G6).
    rewrite G1, G2, G3, G4, G5, G6, H1, H2, H3, H4, H5, H6.
    repeat split. rewrite length_app. cbn [List.length]. lia.
Qed.

Lemma both_axes_at_work_never_finish_on_the_target :
  let w := mk_world
             (mk_traj MOVING_STRAIGHT TURNING_CAP (vect2.mk 1000 0) 1 (vect2.mk 0 0)
                0 0 (vect2.mk 0 0) 50 (3 / 10) 0 (mk_position 0 0 1 0 0) 3)
             0 keyframe_init [3%Z] [] in
  let ps := [mk_position 1000 0 1 0 0; mk_position 1000 0 1 0 0] in
  let w' := run_ticks ps w in
  moving_state (traj w') = moving_state (traj w)
  /\ turning_state (traj w') = turning_state (traj w)
  /\ end_of_traj (traj w') = end_of_traj (traj w)
  /\ scheduler_task (traj w') = scheduler_task (traj w)
  /\ tasks w' = tasks w
  /\ List.length (calls w') = (List.length (calls w) + 3 * List.length ps)%nat.
Proof.
  intros w ps.
  apply (both_axes_at_work_never_finish ps w); discriminate.
Defined.

(** X22: The turning axis finishes in the angle window: with the moving axis
    idle and the turning axis at work, a tick that finds the heading inside
    the angle window sets the turning axis idle, marks the trajectory done,
    deregisters the task and issues only the stop calls. *)
Theorem turning_finishes_in_the_angle_window (w : world) :
  moving_state (traj w) = MOVING_IDLE ->
  turning_state (traj w) <> TURNING_IDLE ->
  holonomic_robot_in_angle_window (traj w) (a_win (traj w)) = true ->
  task_consistent w ->
  let w' := holonomic_trajectory_manager_event w in
  w' = holonomic_delete_event (with_traj (set_turning_state TURNING_IDLE) w)
  /\ turning_state (traj w') = TURNING_IDLE
  /\ end_of_traj (traj w') = 1%Z
  /\ scheduler_task (traj w') = (-1)%Z
  /\ tasks w' = [].
Proof.
  intros Hm Ht Hwin Hc w'.
  assert (Hev : w' = holonomic_delete_event (with_traj (set_turning_state TURNING_IDLE) w)).
  { subst w'. unfold holonomic_trajectory_manager_event, moving_step.
    rewrite Hm. cbv iota beta.
    assert (Hg : is_TURNING_IDLE (turning_state (traj w)) = false).
    { destruct (turning_state (traj w)); try reflexivity. now contradiction Ht. }
    rewrite Hg. cbn [andb]. unfold finish_or_issue.
    rewrite Hm, Hwin. reflexivity. }
  split; [exact Hev |]. rewrite Hev.
  set (u := with_traj (set_turning_state TURNING_IDLE) w).
  assert (Hcu : task_consistent u) by exact Hc.
  destruct (delete_event_disarms u Hcu) as [Hta Hs].
  destruct (delete_event_frame u) as (_ & _ & Hts & _ & _ & _ & He).
  rewrite Hts, He, Hs, Hta. repeat split.
Qed.

Lemma turning_finishes_in_the_angle_window_on_the_wraparound :
  let w := mk_world wraparound_example 0 keyframe_init [] [] in
  let w' := holonomic_trajectory_manager_event w in
  w' = holonomic_delete_event (with_traj (set_turning_state TURNING_IDLE) w)
  /\ turning_state (traj w') = TURNING_IDLE
  /\ end_of_traj (traj w') = 1%Z
  /\ scheduler_task (traj w') = (-1)%Z
  /\ tasks w' = [].
Proof.
  intros w.
  apply (turning_finishes_in_the_angle_window w).
  - reflexivity.
  - discriminate.
  - unfold holonomic_robot_in_angle_window. simpl. rewrite ABS_Rabs.
    pose proof PI_gt_3. unfold C.M_PI.
    replace (5 / 100 - (2 * PI - 5 / 100)) with (- (2 * PI - 1 / 10)) by lra.
    rewrite Rabs_Ropp, Rabs_pos_eq by lra.
    replace (C.ltb (2 * PI - 1 / 10) PI) with false
      by (symmetry; apply ltb_false_iff; lra).
    apply ltb_true_iff. lra.
  - reflexivity.
Defined.
